(** * neodb: the memcache-backed mutex, the lock-name derivation and the
    key generator

    A shallow embedding of [neodb/mutex.py], [neodb/keygen.py] and of the
    [as_key] / [as_path] helpers of [neodb/__init__.py], with the properties
    the specification states about them. *)

From Stdlib Require Import ZArith QArith Qround Qpower Lqa Lia List String Ascii.
From stdpp Require Import base option list strings gmap pretty.

Close Scope Q_scope.
Local Open Scope string_scope.
Local Open Scope list_scope.
Local Open Scope Z_scope.

(** ** The fragment of Python the sources rely on *)

Module Py.

(** Exceptions that the modelled code can raise or let through. *)
Inductive exn : Type :=
| LockUnavailable (mutex : string)   (* mutex.py, class LockUnavailable *)
| IndexError                         (* indexing past the end of a sequence *)
| AttributeError                     (* attribute access on None *)
| IOError                            (* time.sleep on a negative number *)
| RuntimeError (msg : string)        (* contextlib's protocol violations *)
| UserError (tag : string).          (* anything a caller's block raises *)

Inductive result (A : Type) : Type :=
| Ok (a : A)
| Err (e : exn).
Arguments Ok {A} a.
Arguments Err {A} e.

(** [xrange(n)]: 0, 1, ..., n-1, empty when n <= 0. *)
Definition xrange (n : Z) : list Z := map Z.of_nat (seq 0 (Z.to_nat n)).

(** [int(x)] on a number: truncation towards zero. *)
Definition int (x : Q) : Z := Z.quot (Qnum x) (Zpos (Qden x)).

(** [x < 0] on a number. *)
Definition negative (x : Q) : bool := negb (Qle_bool (inject_Z 0) x).

(** [len(s)] of a str. *)
Definition len (s : string) : Z := Z.of_nat (String.length s).

(** [s[i]] on a str: negative indices count from the end, anything out of
    range raises IndexError. *)
Definition getitem (s : string) (i : Z) : result ascii :=
  let j := if i <? 0 then len s + i else i in
  if j <? 0 then Err IndexError
  else match String.get (Z.to_nat j) s with
       | Some c => Ok c
       | None => Err IndexError
       end.

(** The characters of a str. *)
Definition chars (s : string) : list ascii := list_ascii_of_string s.

(** The process-wide pseudo random generator behind [random.random()]:
    an abstract state, a draw that advances it, and the documented range
    of a draw, the half-open interval [0.0, 1.0). Numbers are exact
    rationals. *)
Class RandomSource (G : Type) : Type := {
  random : G -> Q * G;
  random_range : forall g, (0 <= fst (random g))%Q /\ (fst (random g) < 1)%Q
}.

(** A number in the half-open unit interval. *)
Definition unit_draw (r : Q) : Prop := (0 <= r)%Q /\ (r < 1)%Q.

(** [random.choice(seq)], which is [seq[int(random() * len(seq))]]. *)
Definition choice {G} `{RandomSource G} (seq : string) (g : G)
  : result ascii * G :=
  let (r, g') := random g in
  (getitem seq (int (r * inject_Z (len seq))), g').

(** A concrete generator to run the code on: a linear congruential state,
    each draw a multiple of 1/1024. *)
Definition lcg_next (g : Z) : Z := (g * 1103515245 + 12345) mod 2147483648.

Definition lcg_draw (g : Z) : Q := ((g / 65536) mod 1024) # 1024.

Definition lcg_range (g : Z) : (0 <= lcg_draw g)%Q /\ (lcg_draw g < 1)%Q.
Proof.
  unfold lcg_draw, Qle, Qlt; simpl.
  pose proof (Z.mod_pos_bound (g / 65536) 1024 ltac:(lia)). lia.
Qed.

#[global] Instance lcg : RandomSource Z :=
  {| random := fun g => (lcg_draw g, lcg_next g); random_range := lcg_range |}.

End Py.

(** ** neodb/keygen.py *)

Module Keygen.
Import Py.

Definition default_size : Z := 11.

Definition default_alphabet : string :=
  "23456789abcdefghijkmnopqrstuvwxyzABCDEFGHJKLMNPQRSTUVWXYZ".

Section WithRandom.
Context {G : Type} `{RandomSource G}.

(** [''.join(random.choice(alphabet) for _ in its)]: one draw per element
    of [its], in order; an exception of [choice] ends the join. *)
Fixpoint join_choices (alphabet : string) (its : list Z) (g : G)
  : result string * G :=
  match its with
  | [] => (Ok "", g)
  | _ :: rest =>
      match choice alphabet g with
      | (Ok c, g1) =>
          match join_choices alphabet rest g1 with
          | (Ok s, g2) => (Ok (String c s), g2)
          | (Err e, g2) => (Err e, g2)
          end
      | (Err e, g1) => (Err e, g1)
      end
  end.

(** [gen_key(size, alphabet)]; the keyword defaults are [default_size] and
    [default_alphabet]. *)
Definition gen_key (size : Z) (alphabet : string) (g : G)
  : result string * G :=
  join_choices alphabet (xrange size) g.

Definition gen_short_key (g : G) : result string * G :=
  gen_key 11 default_alphabet g.

Definition gen_medium_key (g : G) : result string * G :=
  gen_key 22 default_alphabet g.

Definition gen_long_key (g : G) : result string * G :=
  gen_key 44 default_alphabet g.

Definition generate_key : G -> result string * G := gen_medium_key.

End WithRandom.

End Keygen.

(** ** neodb/mutex.py *)

Module Mutex.
Import Py.

(** *** The generator behind [@contextmanager def lock] *)

(** What a generator suspended at [yield] is resumed with: [next()] when the
    [with] block ended without an exception, [throw(e)] when it raised. *)
Inductive resume : Type :=
| Next
| Throw (e : exn).

(** A generator as the tree of its effects. Each node is the call the code
    makes next, with the rest of the body as continuation. *)
Inductive Gen : Type :=
| MemcacheAdd (key : string) (value : bool) (time : Z) (namespace : string)
              (k : bool -> Gen)
| MemcacheDelete (key : string) (namespace : string) (k : Gen)
| RandomRandom (k : Q -> Gen)
| TimeSleep (secs : Q) (k : Gen)
| Yield (k : resume -> Gen)
| Raise (e : exn)
| Return.

(** The [finally] clause and what follows it: the delete, then either the end
    of the generator or the exception thrown in, raised again. *)
Definition release (mutex : string) (r : resume) : Gen :=
  MemcacheDelete mutex "mutex"
    (match r with
     | Next => Return
     | Throw e => Raise e
     end).

(** [try: yield finally: memcache.delete(mutex, namespace='mutex')] *)
Definition guarded (mutex : string) : Gen := Yield (release mutex).

(** The [for retry in ...: ... else: raise LockUnavailable(mutex)] loop over
    the retry numbers still to come; [break] continues with the guarded
    yield. *)
Fixpoint attempts (mutex : string) (expiry : Z) (backoff : Q)
  (retries : list Z) : Gen :=
  match retries with
  | [] => Raise (LockUnavailable mutex)
  | retry :: rest =>
      MemcacheAdd mutex true expiry "mutex" (fun added =>
        if added then guarded mutex
        else RandomRandom (fun r =>
               TimeSleep (backoff ^ retry + r * 1)%Q
                 (attempts mutex expiry backoff rest)))
  end.

Definition lock (mutex : string) (expiry : Z) (retries : Z) (backoff : Q)
  : Gen :=
  attempts mutex expiry backoff (xrange retries).

(** Keyword arguments of [lock]; an absent one takes the default of the
    signature [lock(mutex, expiry=10*60, retries=5, backoff=2)]. *)
Record kwargs : Type := {
  kw_expiry : option Z;
  kw_retries : option Z;
  kw_backoff : option Q
}.

Definition no_kwargs : kwargs :=
  {| kw_expiry := None; kw_retries := None; kw_backoff := None |}.

Definition lock_kw (mutex : string) (kw : kwargs) : Gen :=
  lock mutex
    (default (10 * 60) (kw_expiry kw))
    (default 5 (kw_retries kw))
    (default (inject_Z 2) (kw_backoff kw)).

(** *** Running a generator against its environment *)

(** The collaborators of [lock]: the memcache client, [time.sleep] and the
    random generator, over a state [W] of everything outside the process. *)
Class Env (W : Type) : Type := {
  env_random :: RandomSource W;
  memcache_add : string -> bool -> Z -> string -> W -> bool * W;
  memcache_delete : string -> string -> W -> W;
  time_sleep : Q -> W -> W
}.

(** How a [with] block ends. *)
Inductive outcome : Type :=
| Completed                (* ran to its end *)
| EarlyExit                (* return, break or continue inside the block *)
| Raises (e : exn).

(** What an observer of the process sees, in order. *)
Inductive event : Type :=
| EvAdd (key : string) (value : bool) (time : Z) (namespace : string)
        (added : bool)
| EvDelete (key : string) (namespace : string)
| EvRandom (r : Q)
| EvSleep (secs : Q)
| EvBlock (o : outcome).

(** Where a generator stops when it is run. *)
Inductive stop : Type :=
| Yielded (k : resume -> Gen)
| Raised (e : exn)
| Returned.

Section Run.
Context {W : Type} `{Env W}.

(** Run a generator up to its next [yield], its end or an exception.
    [time.sleep] refuses a negative number with IOError (invalid argument)
    and does not sleep. *)
Fixpoint run (g : Gen) (w : W) : stop * W * list event :=
  match g with
  | MemcacheAdd key value time ns k =>
      let (added, w1) := memcache_add key value time ns w in
      let '(s, w2, tr) := run (k added) w1 in
      (s, w2, EvAdd key value time ns added :: tr)
  | MemcacheDelete key ns k =>
      let '(s, w2, tr) := run k (memcache_delete key ns w) in
      (s, w2, EvDelete key ns :: tr)
  | RandomRandom k =>
      let (r, w1) := random w in
      let '(s, w2, tr) := run (k r) w1 in
      (s, w2, EvRandom r :: tr)
  | TimeSleep secs k =>
      if negative secs then (Raised IOError, w, [EvSleep secs])
      else
        let '(s, w2, tr) := run k (time_sleep secs w) in
        (s, w2, EvSleep secs :: tr)
  | Yield k => (Yielded k, w, [])
  | Raise e => (Raised e, w, [])
  | Return => (Returned, w, [])
  end.

(** [with cm: block], by the protocol of contextlib's
    GeneratorContextManager: [__enter__] runs the generator to its yield,
    the block runs, [__exit__] resumes the generator with [next()] or
    [throw()] and expects it to stop. *)
Definition with_ (cm : Gen) (block : W -> outcome * W) (w : W)
  : outcome * W * list event :=
  match run cm w with
  | (Yielded k, w1, t1) =>
      let (o, w2) := block w1 in
      match o with
      | Raises e =>
          match run (k (Throw e)) w2 with
          | (Raised e', w3, t3) => (Raises e', w3, t1 ++ EvBlock o :: t3)
          | (Returned, w3, t3) => (Completed, w3, t1 ++ EvBlock o :: t3)
          | (Yielded _, w3, t3) =>
              (Raises (RuntimeError "generator didn't stop after throw()"),
               w3, t1 ++ EvBlock o :: t3)
          end
      | _ =>
          match run (k Next) w2 with
          | (Returned, w3, t3) => (o, w3, t1 ++ EvBlock o :: t3)
          | (Raised e', w3, t3) => (Raises e', w3, t1 ++ EvBlock o :: t3)
          | (Yielded _, w3, t3) =>
              (Raises (RuntimeError "generator didn't stop"),
               w3, t1 ++ EvBlock o :: t3)
          end
      end
  | (Raised e, w1, t1) => (Raises e, w1, t1)
  | (Returned, w1, t1) => (Raises (RuntimeError "generator didn't yield"), w1, t1)
  end.

End Run.

(** Projections of a trace. *)
Definition adds (tr : list event) : list (string * bool * Z * string * bool) :=
  flat_map (fun ev => match ev with
                      | EvAdd key value time ns added =>
                          [(key, value, time, ns, added)]
                      | _ => []
                      end) tr.




Definition blocks (tr : list event) : list outcome :=
  flat_map (fun ev => match ev with EvBlock o => [o] | _ => [] end) tr.


(** What one failed attempt leaves in the trace. *)
Definition failed_attempt (mutex : string) (expiry : Z) (backoff : Q)
  (retry : Z) (r : Q) : list event :=
  [EvAdd mutex true expiry "mutex" false; EvRandom r;
   EvSleep (backoff ^ retry + r * 1)%Q].

Definition backing_off (mutex : string) (expiry : Z) (backoff : Q)
  (retries : list Z) (ds : list Q) : list event :=
  concat (zip_with (failed_attempt mutex expiry backoff) retries ds).

Definition stop_of {W} (r : stop * W * list event) : stop := fst (fst r).
Definition world_of {A W} (r : A * W * list event) : W := snd (fst r).
Definition trace_of {A W} (r : A * W * list event) : list event := snd r.
Definition outcome_of {W} (r : outcome * W * list event) : outcome := fst (fst r).

End Mutex.

(** ** The shared store and the processes around it *)

Module Cache.
Import Py Mutex.

(** Modelled from the spec: the memcache service is an external collaborator.
    Its contract is create-if-absent with a time to live, which answers true
    iff this call created the entry, and an idempotent delete; an entry is
    removed by the store once its time to live has elapsed. Existence of the
    entry is the lock. *)
Record entry : Type := { value : bool; expires : Q }.

Record cache : Type := {
  store : gmap (string * string) entry;   (* (namespace, key) to entry *)
  now : Q                                 (* the store's clock, in seconds *)
}.

Definition live (t : Q) (e : entry) : bool := negb (Qle_bool (expires e) t).

(** The entry under a key, unless it has expired. *)
Definition lookup_live (key ns : string) (c : cache) : option entry :=
  match store c !! (ns, key) with
  | Some e => if live (now c) e then Some e else None
  | None => None
  end.

Definition add (key : string) (v : bool) (ttl : Z) (ns : string) (c : cache)
  : bool * cache :=
  match lookup_live key ns c with
  | Some _ => (false, c)
  | None =>
      (true,
       {| store := <[(ns, key) := {| value := v;
                                     expires := (now c + inject_Z ttl)%Q |}]>
                     (store c);
          now := now c |})
  end.

Definition delete (key ns : string) (c : cache) : cache :=
  {| store := base.delete (ns, key) (store c); now := now c |}.

Definition elapse (d : Q) (c : cache) : cache :=
  {| store := store c; now := (now c + d)%Q |}.

Definition empty : cache := {| store := ∅; now := inject_Z 0 |}.

(** One process with the store to itself: the world is the store and the
    process's random generator. *)
Definition world (G : Type) : Type := cache * G.

Definition world_random {G} `{RandomSource G} (w : world G) : Q * world G :=
  (fst (random (snd w)), (fst w, snd (random (snd w)))).

#[global] Instance world_source {G} `{RandomSource G} : RandomSource (world G) :=
  {| random := world_random; random_range := fun w => random_range (snd w) |}.

#[global] Instance world_env {G} `{RandomSource G} : Env (world G) :=
  {| env_random := world_source;
     memcache_add := fun key v ttl ns w =>
       (fst (add key v ttl ns (fst w)), (snd (add key v ttl ns (fst w)), snd w));
     memcache_delete := fun key ns w => (delete key ns (fst w), snd w);
     time_sleep := fun d w => (elapse d (fst w), snd w) |}.

(** A store on which every name is held by someone else for good: every add
    answers false and nothing changes. The world is then just the process's
    random generator. *)
Record busy (G : Type) : Type := Busy { busy_rng : G }.
Arguments Busy {G} busy_rng.
Arguments busy_rng {G} b.

Definition busy_random {G} `{RandomSource G} (w : busy G) : Q * busy G :=
  (fst (random (busy_rng w)), Busy (snd (random (busy_rng w)))).

#[global] Instance busy_source {G} `{RandomSource G} : RandomSource (busy G) :=
  {| random := busy_random; random_range := fun w => random_range (busy_rng w) |}.

#[global] Instance busy_env {G} `{RandomSource G} : Env (busy G) :=
  {| env_random := busy_source;
     memcache_add := fun _ _ _ _ w => (false, w);
     memcache_delete := fun _ _ w => w;
     time_sleep := fun _ w => w |}.

(** *** Several processes, one store *)

(** A process executing [with mutex.lock(name, ...): block]: the name it
    locks on and where its generator stands. A generator at [Yield] means
    the process is inside its block. *)
Record proc : Type := { proc_mutex : string; proc_gen : Gen }.

Record system : Type := { shared : cache; procs : list proc }.

Definition start (mutex : string) (expiry retries : Z) (backoff : Q) : proc :=
  {| proc_mutex := mutex; proc_gen := lock mutex expiry retries backoff |}.

(** The atomic steps of the system. *)
Inductive label : Type :=
| Call (i : nat)                    (* process i's pending add, delete or sleep returns *)
| Draw (i : nat) (r : Q)            (* process i's random() returns r *)
| BlockEnds (i : nat) (r : resume)  (* process i's block ends; its generator resumes *)
| Tick (d : Q).                     (* d seconds pass *)

Definition set_gen (i : nat) (p : proc) (g : Gen) (c : cache) (s : system)
  : system :=
  {| shared := c;
     procs := <[i := {| proc_mutex := proc_mutex p; proc_gen := g |}]> (procs s) |}.

(** A sleeper may wake at any later step: the time it sleeps is the time
    the ticks in between add up to, which the model leaves free. A sleep
    for a negative number raises at once. *)
Definition fire (l : label) (s : system) : option system :=
  match l with
  | Call i =>
      match procs s !! i with
      | Some p =>
          match proc_gen p with
          | MemcacheAdd key v ttl ns k =>
              let (added, c) := add key v ttl ns (shared s) in
              Some (set_gen i p (k added) c s)
          | MemcacheDelete key ns k =>
              Some (set_gen i p k (delete key ns (shared s)) s)
          | TimeSleep secs k =>
              Some (set_gen i p (if negative secs then Raise IOError else k)
                            (shared s) s)
          | _ => None
          end
      | None => None
      end
  | Draw i r =>
      match procs s !! i with
      | Some p =>
          match proc_gen p with
          | RandomRandom k =>
              if Qle_bool (inject_Z 0) r && negb (Qle_bool (inject_Z 1) r)
              then Some (set_gen i p (k r) (shared s) s)
              else None
          | _ => None
          end
      | None => None
      end
  | BlockEnds i r =>
      match procs s !! i with
      | Some p =>
          match proc_gen p with
          | Yield k => Some (set_gen i p (k r) (shared s) s)
          | _ => None
          end
      | None => None
      end
  | Tick d =>
      if Qle_bool d (inject_Z 0) then None
      else Some {| shared := elapse d (shared s); procs := procs s |}
  end.

(** Inside the block. *)
Definition in_block (p : proc) : bool :=
  match proc_gen p with
  | Yield _ => true
  | _ => false
  end.

(** Between a successful add and the delete that releases it. *)
Definition holding (p : proc) : bool :=
  match proc_gen p with
  | Yield _ | MemcacheDelete _ _ _ => true
  | _ => false
  end.

(** Every holder's entry is still in the store: no lock has outlived its
    time to live while held. *)
Definition leased (s : system) : bool :=
  forallb (fun p =>
             implb (holding p)
                   (bool_decide (is_Some (lookup_live (proc_mutex p) "mutex" (shared s)))))
          (procs s).

(** Executions: the labels fired in order. *)
Fixpoint exec (ls : list label) (s : system) : option system :=
  match ls with
  | [] => Some s
  | l :: rest =>
      match fire l s with
      | Some s' => exec rest s'
      | None => None
      end
  end.

(** The instant at which the entry of each current holder expires, kept
    beside an execution: process i is entered when its add succeeds, with
    the instant of the add plus the time to live it asked for, and removed
    when it calls delete. *)
Definition note (l : label) (s : system) (ds : gmap nat Q) : gmap nat Q :=
  match l with
  | Call i =>
      match procs s !! i with
      | Some p =>
          match proc_gen p with
          | MemcacheAdd key v ttl ns k =>
              if fst (add key v ttl ns (shared s))
              then <[i := (now (shared s) + inject_Z ttl)%Q]> ds
              else ds
          | MemcacheDelete _ _ _ => base.delete i ds
          | _ => ds
          end
      | None => ds
      end
  | _ => ds
  end.

(** No holder has reached the instant at which its entry expires. *)
Definition in_time (s : system) (ds : gmap nat Q) : bool :=
  forallb (fun d => negb (Qle_bool (snd d) (now (shared s)))) (map_to_list ds).

(** Executions in which every state on the way is [in_time]. *)
Fixpoint exec_in_time (ls : list label) (s : system) (ds : gmap nat Q)
  : option (system * gmap nat Q) :=
  match ls with
  | [] => Some (s, ds)
  | l :: rest =>
      match fire l s with
      | Some s' =>
          if in_time s' (note l s ds) then exec_in_time rest s' (note l s ds)
          else None
      | None => None
      end
  end.

(** No two processes locking on the same name are inside their blocks. *)
Definition exclusive (s : system) : Prop :=
  forall i j p q,
    procs s !! i = Some p -> procs s !! j = Some q ->
    proc_mutex p = proc_mutex q ->
    in_block p = true -> in_block q = true -> i = j.

(** The system that starts with the store [c] and one process per call
    [lock(name, expiry, retries, backoff)], none of them started yet. *)
Definition boot (c : cache) (calls : list (string * Z * Z * Q)) : system :=
  {| shared := c;
     procs := map (fun call => start (fst (fst (fst call))) (snd (fst (fst call)))
                                     (snd (fst call)) (snd call)) calls |}.

(** The places where the generator of a call [lock(mutex, ...)] can stand:
    before an attempt, before the draw or the sleep that follow a failed
    one, at the yield, in the finally clause, or at its end. *)
Inductive lock_state (mutex : string) : Gen -> Prop :=
| at_attempt expiry backoff rest :
    lock_state mutex (attempts mutex expiry backoff rest)
| at_draw expiry backoff retry rest :
    lock_state mutex
      (RandomRandom (fun r =>
         TimeSleep (backoff ^ retry + r * 1)%Q (attempts mutex expiry backoff rest)))
| at_sleep expiry backoff secs rest :
    lock_state mutex (TimeSleep secs (attempts mutex expiry backoff rest))
| at_yield : lock_state mutex (guarded mutex)
| at_release r : lock_state mutex (release mutex r)
| at_return : lock_state mutex Return
| at_raise e : lock_state mutex (Raise e).

Definition well_formed (s : system) : Prop :=
  forall i p, procs s !! i = Some p -> lock_state (proc_mutex p) (proc_gen p).

(** At most one process per name is between its add and its delete. *)
Definition unique_holder (s : system) : Prop :=
  forall i j p q,
    procs s !! i = Some p -> procs s !! j = Some q ->
    proc_mutex p = proc_mutex q ->
    holding p = true -> holding q = true -> i = j.

(** Every holder's entry is in the store, and the instant noted for the
    holder is the instant that entry expires. *)
Definition noted (s : system) (ds : gmap nat Q) : Prop :=
  forall i p,
    procs s !! i = Some p -> holding p = true ->
    exists e, store (shared s) !! ("mutex", proc_mutex p) = Some e /\
              ds !! i = Some (expires e).

End Cache.

(** ** neodb/__init__.py: as_key and as_path *)

Module Neodb.
Import Py.

(** What [ndb.Key.flat()] returns: the tuple kind1, id1, kind2, id2, ...,
    root first. ndb is an external library; a kind is a str, an id is a str,
    an int or long, or None (the last id of an incomplete key). *)
Inductive component : Type :=
| Str (s : string)
| Int (n : Z)
| NoneId.

Record Key : Type := { pairs : list (string * component) }.

Definition flat (k : Key) : list component :=
  flat_map (fun p => [Str (fst p); snd p]) (pairs k).

(** [str(it)]: a str is itself, an integer is written in base 10, None is
    'None'. *)
Definition str (c : component) : string :=
  match c with
  | Str s => s
  | Int n => pretty n
  | NoneId => "None"
  end.

(** What the helpers are handed: None, a key, or an entity, whose [key]
    attribute is a key or None. *)
Inductive item : Type :=
| NoItem
| AKey (k : Key)
| AnEntity (key : option Key).

Definition as_key (it : item) : option Key :=
  match it with
  | NoItem => None
  | AKey k => Some k
  | AnEntity key => key
  end.

(** [separator.join(parts)] *)
Definition join (separator : string) (parts : list string) : string :=
  String.concat separator parts.

(** [as_path(item, separator)]; the value is None or a str, and the call
    [.flat()] on a None key raises AttributeError. *)
Definition as_path (it : item) (separator : string) : result (option string) :=
  match it with
  | NoItem => Ok None
  | _ =>
      match as_key it with
      | Some k => Ok (Some (join separator (map str (flat k))))
      | None => Err AttributeError
      end
  end.

Definition default_separator : string := ":".

(** [c in s] for a one-character [c]. *)
Fixpoint occurs (c : ascii) (s : string) : bool :=
  match s with
  | EmptyString => false
  | String a rest => if Ascii.eqb a c then true else occurs c rest
  end.

(** The string forms of a key's components, in order. *)
Definition names (k : Key) : list string := map str (flat k).

Definition free_of (c : ascii) (parts : list string) : Prop :=
  Forall (fun x => occurs c x = false) parts.

(** The identities the specification calls invalid: none at all, an empty
    path, or a component without an identifier. *)
Definition invalid_identity (it : item) : Prop :=
  match as_key it with
  | None => True
  | Some k => pairs k = [] \/ In NoneId (map snd (pairs k))
  end.

End Neodb.

(** ** neodb/plurals.py *)

Module Plurals.
Import Py.

(** *** The regular expressions the module compiles *)

(** One character of a pattern: [.], a literal, or a negated class
    [[^...]]. Without flags [.] is any character but a newline; a negated
    class has no such exception. *)
Inductive atom : Type :=
| Dot
| Lit (c : ascii)
| NoneOf (cs : list ascii).

(** A pattern is a row of pieces: an atom, an atom under [+], or [$]. *)
Inductive piece : Type :=
| One (a : atom)
| Plus (a : atom)
| Dollar.

Definition newline : ascii := "010"%char.

Definition atom_ok (a : atom) (c : ascii) : bool :=
  match a with
  | Dot => negb (Ascii.eqb c newline)
  | Lit c' => Ascii.eqb c c'
  | NoneOf cs => negb (existsb (Ascii.eqb c) cs)
  end.

(** Where [$] matches without MULTILINE: at the end of the string, and just
    before a newline that ends the string. *)
Definition at_end (s : string) : bool :=
  match s with
  | EmptyString => true
  | String c EmptyString => Ascii.eqb c newline
  | _ => false
  end.

(** [pattern.match(s)] as a truth value: can the pieces be matched from the
    start of [s] on? What follows the match is free. *)
Fixpoint re_match (pattern : list piece) : string -> bool :=
  match pattern with
  | [] => fun _ => true
  | One a :: rest =>
      fun s =>
        match s with
        | String c s' => atom_ok a c && re_match rest s'
        | EmptyString => false
        end
  | Plus a :: rest =>
      fix plus (s : string) : bool :=
        match s with
        | String c s' => atom_ok a c && (re_match rest s' || plus s')
        | EmptyString => false
        end
  | Dollar :: rest => fun s => at_end s && re_match rest s
  end.

(** The pieces of a literal run such as [ies]. *)
Definition lits (s : string) : list piece := map (fun c => One (Lit c)) (chars s).

(** [word[:-n]] for n >= 1: all but the last n characters. *)
Definition but_last (n : nat) (word : string) : string :=
  substring 0 (String.length word - n) word.

(** *** The rules *)

Definition vowels : list ascii := ["a"; "e"; "i"; "o"; "u"]%char.

Definition singular_transforms : list (list piece * (string -> string)) :=
  [ (Plus Dot :: lits "ies" ++ [Dollar], fun word => but_last 3 word ++ "y");
    (Plus Dot :: lits "ives" ++ [Dollar], fun word => but_last 4 word ++ "ife");
    (Plus Dot :: lits "ves" ++ [Dollar], fun word => but_last 3 word ++ "f");
    (Plus Dot :: lits "s" ++ [Dollar], fun word => but_last 1 word) ]%string.

Definition plural_transforms : list (list piece * (string -> string)) :=
  [ (Plus Dot :: One (NoneOf vowels) :: lits "y" ++ [Dollar],
     fun word => but_last 1 word ++ "ies");
    (Plus Dot :: lits "f" ++ [Dollar], fun word => but_last 1 word ++ "ves");
    (Plus Dot :: lits "fe" ++ [Dollar], fun word => but_last 2 word ++ "ves") ]%string.

(** [for pattern, transform in transforms: if pattern.match(word): return
    transform(word)], and [otherwise] when the loop runs out. *)
Fixpoint first_match (transforms : list (list piece * (string -> string)))
  (word : string) (otherwise : string) : string :=
  match transforms with
  | [] => otherwise
  | (pattern, transform) :: rest =>
      if re_match pattern word then transform word
      else first_match rest word otherwise
  end.

Definition singularize (plural : string) : string :=
  first_match singular_transforms plural plural.

Definition pluralize (singular : string) : string :=
  first_match plural_transforms singular (singular ++ "s")%string.

(** A word without a newline in it. *)
Definition one_line (s : string) : Prop := Forall (fun c => c <> newline) (chars s).

End Plurals.

(** ** neodb/__init__.py: lock *)

Module NeodbLock.
Import Py Mutex Neodb.

(** What contextlib says when a generator that was resumed yields again. *)
Definition didnt_stop (r : resume) : string :=
  match r with
  | Next => "generator didn't stop"
  | Throw _ => "generator didn't stop after throw()"
  end.

(** The [__exit__] of an inner [with] as the enclosing generator goes
    through it: the inner generator runs on to its end. Its exception is the
    enclosing generator's; its end, also after a [throw()], lets the
    enclosing generator fall off its own end; a second yield is contextlib's
    RuntimeError. *)
Fixpoint until_stop (msg : string) (g : Gen) : Gen :=
  match g with
  | MemcacheAdd key value time ns k =>
      MemcacheAdd key value time ns (fun added => until_stop msg (k added))
  | MemcacheDelete key ns k => MemcacheDelete key ns (until_stop msg k)
  | RandomRandom k => RandomRandom (fun r => until_stop msg (k r))
  | TimeSleep secs k => TimeSleep secs (until_stop msg k)
  | Yield _ => Raise (RuntimeError msg)
  | Raise e => Raise e
  | Return => Return
  end.

(** The generator body [with cm: yield]: the [__enter__] of [cm], the
    enclosing generator's own yield, and the [__exit__] of [cm] with what
    the enclosing generator was resumed with. *)
Fixpoint with_yield (cm : Gen) : Gen :=
  match cm with
  | MemcacheAdd key value time ns k =>
      MemcacheAdd key value time ns (fun added => with_yield (k added))
  | MemcacheDelete key ns k => MemcacheDelete key ns (with_yield k)
  | RandomRandom k => RandomRandom (fun r => with_yield (k r))
  | TimeSleep secs k => TimeSleep secs (with_yield k)
  | Yield k => Yield (fun r => until_stop (didnt_stop r) (k r))
  | Raise e => Raise e
  | Return => Raise (RuntimeError "generator didn't yield")
  end.

(** [lock(item, **kwargs)]. The path is computed first, and its exception is
    the generator's. [on_none] stands for the generator
    [mutex.lock(None, **kwargs)]: what the memcache client does with a key
    that is None is not in these sources. *)
Definition lock (it : item) (kw : kwargs) (on_none : Gen) : Gen :=
  match as_path it default_separator with
  | Err e => Raise e
  | Ok (Some name) => with_yield (lock_kw name kw)
  | Ok None => with_yield on_none
  end.

End NeodbLock.

(** ** neodb/__init__.py: the coercions and memoized *)

Module Helpers.
Import Py Neodb.

(** The values the coercions are handed: an item (None, a key, an entity),
    a string, an integer, or a list or tuple of values, the one kind among
    them that has [__iter__]. *)
#[warnings="-register-all"] Inductive value : Type :=
| Item (it : item)
| Text (s : string)
| Number (n : Z)
| Sequence (vs : list value).

(** [_list_or_args(items)] on the tuple of positional arguments. *)
Definition _list_or_args (items : list value) : list value :=
  match items with
  | [Sequence vs] => vs
  | _ => items
  end.

(** [as_key(item)] on any value: what is neither None nor a key is asked for
    its [key] attribute, which a string, a number and a list do not have. *)
Definition as_key (v : value) : result (option Key) :=
  match v with
  | Item it => Ok (Neodb.as_key it)
  | _ => Err AttributeError
  end.

(** A list comprehension [[f(item) for item in items]]: the first exception
    ends it. *)
Fixpoint comprehension {A B : Type} (f : A -> result B) (items : list A)
  : result (list B) :=
  match items with
  | [] => Ok []
  | item :: rest =>
      match f item with
      | Ok b =>
          match comprehension f rest with
          | Ok bs => Ok (b :: bs)
          | Err e => Err e
          end
      | Err e => Err e
      end
  end.

Definition as_keys (items : list value) : result (list (option Key)) :=
  comprehension as_key (_list_or_args items).

(** [key.id()]: the id of the last pair. A key has at least one pair; ndb
    builds no empty one. *)
Definition key_id (k : Key) : component :=
  match last (pairs k) with
  | Some p => snd p
  | None => NoneId
  end.

(** [as_id(item)]; the result is None, a string or an integer. *)
Definition as_id (v : value) : result component :=
  match v with
  | Item NoItem => Ok NoneId
  | Text s => Ok (Str s)
  | Number n => Ok (Int n)
  | _ =>
      match as_key v with
      | Ok (Some k) => Ok (key_id k)
      | Ok None => Err AttributeError
      | Err e => Err e
      end
  end.

Definition as_ids (items : list value) : result (list component) :=
  comprehension as_id (_list_or_args (items)).

(** The keys that [get] and [delete] hand to ndb, both called with any
    number of items: [as_keys(_list_or_args(items))], a call of [as_keys]
    with one argument, the tuple or list that [_list_or_args] returned. *)
Definition keys_of_items (items : list value) : result (list (option Key)) :=
  as_keys [Sequence (_list_or_args items)].

(** An id as a value again. *)
Definition id_value (c : component) : value :=
  match c with
  | Str s => Text s
  | Int n => Number n
  | NoneId => Item NoItem
  end.

(** [as_path(item, separator)] on any value: None is answered with None,
    and everything else goes through [as_key] and [.flat()]. *)
Definition as_path (v : value) (separator : string) : result (option string) :=
  match v with
  | Item NoItem => Ok None
  | _ =>
      match as_key v with
      | Ok (Some k) => Ok (Some (join separator (map str (flat k))))
      | Ok None => Err AttributeError
      | Err e => Err e
      end
  end.

(** What [as_key] cannot take: a string, a number, a list. *)
Definition keyless (v : value) : Prop :=
  match v with
  | Item _ => False
  | _ => True
  end.

(** What [as_id] cannot take: a list, and an entity whose key is None. *)
Definition idless (v : value) : Prop :=
  match v with
  | Sequence _ | Item (AnEntity None) => True
  | _ => False
  end.

(** *** memoized *)

Section Memoized.
Variable V : Type.

(** An object as its instance attributes, and a function of one argument
    with its [__name__]; calling it may change the object, and may raise. *)
Record function : Type := {
  __name__ : string;
  call : gmap string V -> result V * gmap string V
}.

(** [memoized(func)], the function [decorate]. *)
Definition memoized (func : function) (target : gmap string V)
  : result V * gmap string V :=
  let memo_prop := ("_memo_for_" ++ __name__ func)%string in
  match target !! memo_prop with
  | Some v => (Ok v, target)
  | None =>
      match call func target with
      | (Ok v, target') => (Ok v, <[memo_prop := v]> target')
      | (Err e, target') => (Err e, target')
      end
  end.

End Memoized.

End Helpers.

(** * Properties *)

(** ** The key generator *)

Module KeygenSpec.
Import Py Keygen.

Lemma xrange_length (n : Z) : length (xrange n) = Z.to_nat n.
Proof. unfold xrange. now rewrite length_map, length_seq. Qed.

(** A draw scaled by a positive length truncates to an index below it. *)
Lemma int_scaled_range (r : Q) (n : Z) :
  (0 <= r)%Q -> (r < 1)%Q -> 0 < n -> 0 <= int (r * inject_Z n) < n.
Proof.
  destruct r as [a b]. unfold Qle, Qlt, int; simpl. intros Ha Hb Hn.
  rewrite Z.mul_1_r in Ha. rewrite !Z.mul_1_r in Hb.
  rewrite Pos.mul_1_r.
  assert (0 <= a * n) by nia.
  rewrite Z.quot_div_nonneg by lia.
  split.
  - apply Z.div_pos; lia.
  - apply Z.div_lt_upper_bound; nia.
Qed.

Lemma get_some_in (s : string) (i : nat) (c : ascii) :
  String.get i s = Some c -> In c (chars s).
Proof.
  revert i. induction s as [|a s IH]; intros i; simpl.
  - discriminate.
  - destruct i as [|i].
    + intros [= ->]. now left.
    + intros Hget. right. eapply IH, Hget.
Qed.

Lemma get_lt_some (s : string) (i : nat) :
  (i < String.length s)%nat -> exists c, String.get i s = Some c.
Proof.
  revert i. induction s as [|a s IH]; intros i; simpl; [lia|].
  destruct i as [|i]; [eauto|]. intros Hi. apply IH. lia.
Qed.

Lemma getitem_in_range (s : string) (i : Z) :
  0 <= i < len s -> exists c, getitem s i = Ok c /\ In c (chars s).
Proof.
  intros [Hlo Hhi]. unfold getitem.
  destruct (i <? 0) eqn:Hneg; [apply Z.ltb_lt in Hneg; lia|]. rewrite Hneg.
  destruct (get_lt_some s (Z.to_nat i)) as [c Hc]; [unfold len in Hhi; lia|].
  rewrite Hc. eauto using get_some_in.
Qed.

Section WithRandom.
Context {G : Type} `{RandomSource G}.

Lemma choice_member (alphabet : string) (g : G) :
  alphabet <> "" ->
  exists c, fst (choice alphabet g) = Ok c /\ In c (chars alphabet).
Proof.
  intros Hne. unfold choice.
  pose proof (random_range g) as [Hlo Hhi].
  destruct (random g) as [r g']; simpl in *.
  apply getitem_in_range, int_scaled_range; try assumption.
  unfold len. destruct alphabet; [congruence | simpl; lia].
Qed.

Lemma join_choices_shape (alphabet : string) (its : list Z) :
  alphabet <> "" ->
  forall g, exists s,
    fst (join_choices alphabet its g) = Ok s /\
    String.length s = length its /\
    (forall c, In c (chars s) -> In c (chars alphabet)).
Proof.
  intros Hne. induction its as [|it its IH]; intros g; simpl.
  - exists "". repeat split. intros c [].
  - destruct (choice_member alphabet g Hne) as (c & Hc & Hin).
    destruct (choice alphabet g) as [rc g1]; simpl in Hc; subst rc.
    destruct (IH g1) as (s & Hs & Hlen & Hall).
    destruct (join_choices alphabet its g1) as [rs g2]; simpl in Hs; subst rs.
    exists (String c s); simpl. repeat split; [congruence|].
    intros c' [<- | Hc']; auto.
Qed.

(** C8 -- for a length n >= 0 and a non-empty alphabet, gen_key(n, alphabet)
    returns a string of exactly n characters, each a member of the alphabet;
    gen_short_key, gen_medium_key and gen_long_key return strings of 11, 22
    and 44 characters. *)
Theorem gen_key_shape (n : Z) (alphabet : string) (g : G) :
  0 <= n -> alphabet <> "" ->
  (exists s, fst (gen_key n alphabet g) = Ok s /\ len s = n /\
             forall c, In c (chars s) -> In c (chars alphabet)) /\
  (exists s, fst (gen_short_key g) = Ok s /\ len s = 11) /\
  (exists s, fst (gen_medium_key g) = Ok s /\ len s = 22) /\
  (exists s, fst (gen_long_key g) = Ok s /\ len s = 44).
Proof.
  intros Hn Hne.
  assert (Hgen : forall m a, 0 <= m -> a <> "" ->
            exists s, fst (gen_key m a g) = Ok s /\ len s = m /\
                      forall c, In c (chars s) -> In c (chars a)).
  { intros m a Hm Ha. unfold gen_key.
    destruct (join_choices_shape a (xrange m) Ha g) as (s & Hs & Hlen & Hall).
    exists s. repeat split; try assumption.
    unfold len. rewrite Hlen, xrange_length. lia. }
  split; [now apply Hgen|].
  assert (Hdef : default_alphabet <> "") by discriminate.
  unfold gen_short_key, gen_medium_key, gen_long_key.
  repeat split.
  - destruct (Hgen 11 default_alphabet ltac:(lia) Hdef) as (s & ? & ? & _); eauto.
  - destruct (Hgen 22 default_alphabet ltac:(lia) Hdef) as (s & ? & ? & _); eauto.
  - destruct (Hgen 44 default_alphabet ltac:(lia) Hdef) as (s & ? & ? & _); eauto.
Qed.

End WithRandom.

Lemma gen_key_shape_witness :
  (exists s, fst (gen_key 3 "ab" 42) = Ok s /\ len s = 3 /\
             forall c, In c (chars s) -> In c (chars "ab")) /\
  (exists s, fst (gen_short_key 42) = Ok s /\ len s = 11) /\
  (exists s, fst (gen_medium_key 42) = Ok s /\ len s = 22) /\
  (exists s, fst (gen_long_key 42) = Ok s /\ len s = 44).
Proof. apply (gen_key_shape 3 "ab" 42); [lia | discriminate]. Defined.

(** C9 -- the default alphabet has exactly 57 characters, all distinct, and
    none of them is one of the look-alikes 0, O, 1, l, I. *)
Theorem default_alphabet_unambiguous :
  len default_alphabet = 57 /\
  NoDup (chars default_alphabet) /\
  Forall (fun c => ~ In c (chars default_alphabet))
         ["0"; "O"; "1"; "l"; "I"]%char.
Proof.
  split; [reflexivity|]. split.
  - apply (bool_decide_unpack _). vm_compute. reflexivity.
  - repeat constructor; intros Hin; vm_compute in Hin;
      repeat (destruct Hin as [Hin | Hin]; [discriminate Hin|]); exact Hin.
Qed.

End KeygenSpec.

(** ** The lock, one process at a time *)

Module MutexSpec.
Import Py Mutex.

Section Projections.
Variables (mutex : string) (expiry : Z) (backoff : Q).

Lemma adds_app t1 t2 : adds (t1 ++ t2) = adds t1 ++ adds t2.
Proof. apply flat_map_app. Qed.





Lemma backing_off_cons retry rs r ds :
  backing_off mutex expiry backoff (retry :: rs) (r :: ds) =
  failed_attempt mutex expiry backoff retry r
    ++ backing_off mutex expiry backoff rs ds.
Proof. reflexivity. Qed.

Lemma backing_off_adds rs : forall ds,
  length ds = length rs ->
  adds (backing_off mutex expiry backoff rs ds) =
  repeat (mutex, true, expiry, "mutex", false) (length rs).
Proof.
  induction rs as [|retry rs IH]; intros [|r ds] Hlen; try discriminate; [reflexivity|].
  rewrite backing_off_cons, adds_app, IH by (simpl in Hlen; lia). reflexivity.
Qed.





End Projections.





Section OneProcess.
Context {W : Type} `{Env W}.
Variables (mutex : string) (expiry : Z) (backoff : Q).

(** The loop, run: some attempts fail, each followed by a draw and a sleep,
    and then the retry numbers are used up and LockUnavailable is raised, or
    one more add succeeds and the generator yields, or one more add fails
    and the sleep after it is asked for a negative time and raises. *)
Lemma run_attempts (rs : list Z) : forall w : W,
  exists done ds,
    length ds = length done /\ Forall unit_draw ds /\
    ((rs = done /\
      stop_of (run (attempts mutex expiry backoff rs) w)
        = Raised (LockUnavailable mutex) /\
      trace_of (run (attempts mutex expiry backoff rs) w)
        = backing_off mutex expiry backoff done ds)
     \/
     (exists retry rest,
        rs = done ++ retry :: rest /\
        stop_of (run (attempts mutex expiry backoff rs) w)
          = Yielded (release mutex) /\
        trace_of (run (attempts mutex expiry backoff rs) w)
          = backing_off mutex expiry backoff done ds
              ++ [EvAdd mutex true expiry "mutex" true])
     \/
     (exists retry rest r,
        rs = done ++ retry :: rest /\ unit_draw r /\
        negative (backoff ^ retry + r * 1)%Q = true /\
        stop_of (run (attempts mutex expiry backoff rs) w) = Raised IOError /\
        trace_of (run (attempts mutex expiry backoff rs) w)
          = backing_off mutex expiry backoff done ds
              ++ failed_attempt mutex expiry backoff retry r)).
Proof.
  induction rs as [|retry rest IH]; intros w.
  - exists [], []. split; [reflexivity|]. split; [constructor|]. left. auto.
  - cbn [attempts run].
    destruct (memcache_add mutex true expiry "mutex" w) as [[|] w1].
    + exists [], []. split; [reflexivity|]. split; [constructor|].
      right. left. exists retry, rest. auto.
    + cbn [run]. pose proof (random_range w1) as Hr.
      destruct (random w1) as [r w2]. cbn [fst] in Hr.
      destruct (negative (backoff ^ retry + r * 1)%Q) eqn:Hneg.
      * exists [], []. split; [reflexivity|]. split; [constructor|].
        right. right. exists retry, rest, r. auto.
      * destruct (IH (time_sleep (backoff ^ retry + r * 1)%Q w2))
          as (done & ds & Hlen & Hds & Hcases).
        destruct (run (attempts mutex expiry backoff rest)
                      (time_sleep (backoff ^ retry + r * 1)%Q w2))
          as [[s w3] tr].
        unfold stop_of, trace_of in *. cbn [fst snd] in *.
        exists (retry :: done), (r :: ds).
        split; [simpl; congruence|]. split; [constructor; assumption|].
        destruct Hcases
          as [(-> & -> & ->)
             | [(retry' & rest' & -> & -> & ->)
               | (retry' & rest' & r' & -> & Hr' & Hneg' & -> & ->)]].
        -- left. auto.
        -- right. left. exists retry', rest'. auto.
        -- right. right. exists retry', rest', r'. auto.
Qed.



(** Once the generator has yielded, the block runs, the delete follows and
    the block's outcome is the outcome of the whole statement. *)
Lemma with_lock_acquired (retries : Z) (block : W -> outcome * W) (w : W) :
  stop_of (run (lock mutex expiry retries backoff) w) = Yielded (release mutex) ->
  with_ (lock mutex expiry retries backoff) block w =
  (fst (block (world_of (run (lock mutex expiry retries backoff) w))),
   memcache_delete mutex "mutex"
     (snd (block (world_of (run (lock mutex expiry retries backoff) w)))),
   trace_of (run (lock mutex expiry retries backoff) w)
     ++ [EvBlock (fst (block (world_of (run (lock mutex expiry retries backoff) w))));
         EvDelete mutex "mutex"]).
Proof.
  unfold with_, stop_of, world_of, trace_of.
  destruct (run (lock mutex expiry retries backoff) w) as [[s w1] t1].
  cbn [fst snd]. intros ->.
  destruct (block w1) as [[| |e] w2]; reflexivity.
Qed.

(** An exception on the way to the yield is the outcome of the statement. *)
Lemma with_lock_raised (retries : Z) (block : W -> outcome * W) (w : W) (e : exn) :
  stop_of (run (lock mutex expiry retries backoff) w) = Raised e ->
  with_ (lock mutex expiry retries backoff) block w =
  (Raises e,
   world_of (run (lock mutex expiry retries backoff) w),
   trace_of (run (lock mutex expiry retries backoff) w)).
Proof.
  unfold with_, stop_of, world_of, trace_of.
  destruct (run (lock mutex expiry retries backoff) w) as [[s w1] t1].
  cbn [fst snd]. now intros ->.
Qed.

Lemma with_lock_unavailable (retries : Z) (block : W -> outcome * W) (w : W) :
  stop_of (run (lock mutex expiry retries backoff) w)
    = Raised (LockUnavailable mutex) ->
  with_ (lock mutex expiry retries backoff) block w =
  (Raises (LockUnavailable mutex),
   world_of (run (lock mutex expiry retries backoff) w),
   trace_of (run (lock mutex expiry retries backoff) w)).
Proof. apply with_lock_raised. Qed.



(** C10 -- with retries = 0 the statement raises LockUnavailable(name) at
    once: no add, no draw, no sleep, no delete, the block does not run and
    the world is as it was. *)
Theorem lock_zero_retries (block : W -> outcome * W) (w : W) :
  with_ (lock mutex expiry 0 backoff) block w
  = (Raises (LockUnavailable mutex), w, []).
Proof. reflexivity. Qed.

End OneProcess.





(** C7 -- the defaults of lock: expiry 600 seconds, 5 retries, backoff
    base 2. *)
Theorem lock_defaults (mutex : string) :
  lock_kw mutex no_kwargs = lock mutex 600 5 (inject_Z 2).
Proof. reflexivity. Qed.

End MutexSpec.

(** ** The lock against the store *)

Module CacheSpec.
Import Py Mutex MutexSpec.

Section Release.
Context {G : Type} `{RandomSource G}.

(** C2 -- guaranteed release: whenever an add of lock succeeded, whatever
    the block does and however it ends (completion, early exit, exception),
    the delete of the name in namespace 'mutex' comes right after the block
    and is the last thing done, the block's outcome is the outcome of the
    statement, and the store has no entry for the name afterwards. *)
Theorem lock_releases (mutex : string) (expiry N : Z) (backoff : Q)
  (block : Cache.world G -> outcome * Cache.world G) (w : Cache.world G) :
  In (mutex, true, expiry, "mutex", true)
     (adds (trace_of (with_ (lock mutex expiry N backoff) block w))) ->
  trace_of (with_ (lock mutex expiry N backoff) block w)
    = trace_of (run (lock mutex expiry N backoff) w)
        ++ [EvBlock (fst (block (world_of (run (lock mutex expiry N backoff) w))));
            EvDelete mutex "mutex"] /\
  outcome_of (with_ (lock mutex expiry N backoff) block w)
    = fst (block (world_of (run (lock mutex expiry N backoff) w))) /\
  Cache.store (fst (world_of (with_ (lock mutex expiry N backoff) block w)))
    !! ("mutex", mutex) = None /\
  Cache.lookup_live mutex "mutex"
    (fst (world_of (with_ (lock mutex expiry N backoff) block w))) = None.
Proof.
  intros Hadded.
  destruct (run_attempts mutex expiry backoff (xrange N) w)
    as (done & ds & Hlen & _ &
        [(_ & Hstop & Htr)
        | [(retry & rest & _ & Hstop & _)
          | (retry & rest & r & _ & _ & _ & Hstop & Htr)]]);
    fold (lock mutex expiry N backoff) in *.
  - exfalso. rewrite (with_lock_unavailable _ _ _ N block w Hstop) in Hadded.
    unfold trace_of in Hadded, Htr. cbn [snd] in Hadded.
    rewrite Htr, backing_off_adds in Hadded by exact Hlen.
    apply repeat_spec in Hadded. discriminate Hadded.
  - rewrite (with_lock_acquired _ _ _ N block w Hstop).
    unfold trace_of, outcome_of, world_of, Cache.lookup_live. cbn [fst snd].
    split; [reflexivity|]. split; [reflexivity|].
    cbn. rewrite lookup_delete_eq. auto.
  - exfalso. rewrite (with_lock_raised _ _ _ N block w _ Hstop) in Hadded.
    unfold trace_of in Hadded, Htr. cbn [snd] in Hadded.
    rewrite Htr, adds_app, backing_off_adds in Hadded by exact Hlen.
    apply in_app_iff in Hadded as [Hadded | Hadded].
    + apply repeat_spec in Hadded. discriminate Hadded.
    + cbn in Hadded. destruct Hadded as [Hadded | []]. discriminate Hadded.
Qed.

End Release.

Lemma lock_releases_witness :
  In ("order:42", true, 600, "mutex", true)
     (adds (trace_of (with_ (lock "order:42" 600 5 (inject_Z 2))
                            (fun w => (Raises (UserError "boom"), w))
                            (Cache.empty, 42)))) /\
  outcome_of (with_ (lock "order:42" 600 5 (inject_Z 2))
                    (fun w => (Raises (UserError "boom"), w))
                    (Cache.empty, 42))
    = Raises (UserError "boom") /\
  Cache.lookup_live "order:42" "mutex"
    (fst (world_of (with_ (lock "order:42" 600 5 (inject_Z 2))
                          (fun w => (Raises (UserError "boom"), w))
                          (Cache.empty, 42)))) = None.
Proof.
  assert (Hadded :
    In ("order:42", true, 600, "mutex", true)
       (adds (trace_of (with_ (lock "order:42" 600 5 (inject_Z 2))
                              (fun w => (Raises (UserError "boom"), w))
                              (Cache.empty, 42))))).
  { vm_compute. left. reflexivity. }
  split; [exact Hadded|].
  destruct (lock_releases "order:42" 600 5 (inject_Z 2)
              (fun w => (Raises (UserError "boom"), w)) (Cache.empty, 42) Hadded)
    as (_ & Hout & _ & Hlive).
  split; [exact Hout | exact Hlive].
Defined.

End CacheSpec.

(** ** Several processes on one store *)

Module SystemSpec.
Import Py Mutex Cache.

(** What [lock_state] says at each kind of node. *)
Lemma lock_state_add m key v ttl ns k :
  lock_state m (MemcacheAdd key v ttl ns k) ->
  key = m /\ ns = "mutex" /\ k true = guarded m /\
  lock_state m (k false) /\
  holding {| proc_mutex := m; proc_gen := k false |} = false.
Proof.
  inversion 1 as [e b rest Heq| | | |r Heq| |].
  destruct rest as [|retry rest]; [discriminate|].
  cbn [attempts] in Heq. injection Heq as <- <- <- <- <-.
  repeat split. apply at_draw.
Qed.

Lemma lock_state_delete m key ns k :
  lock_state m (MemcacheDelete key ns k) ->
  key = m /\ ns = "mutex" /\ lock_state m k /\
  holding {| proc_mutex := m; proc_gen := k |} = false.
Proof.
  inversion 1 as [e b rest Heq| | | |r Heq| |].
  - destruct rest; discriminate.
  - subst. destruct r; repeat split; constructor.
Qed.

Lemma lock_state_sleep m secs k :
  lock_state m (TimeSleep secs k) ->
  lock_state m k /\ holding {| proc_mutex := m; proc_gen := k |} = false.
Proof.
  inversion 1 as [e b rest Heq| |e b d rest| | | |].
  - destruct rest; discriminate.
  - split; [apply at_attempt|]. destruct rest; reflexivity.
Qed.

Lemma lock_state_draw m k r :
  lock_state m (RandomRandom k) ->
  lock_state m (k r) /\ holding {| proc_mutex := m; proc_gen := k r |} = false.
Proof.
  inversion 1 as [e b rest Heq|e b retry rest| | | | |].
  - destruct rest; discriminate.
  - split; [apply at_sleep | reflexivity].
Qed.

Lemma lock_state_yield m k r :
  lock_state m (Yield k) ->
  lock_state m (k r) /\ holding {| proc_mutex := m; proc_gen := k r |} = true.
Proof.
  inversion 1 as [e b rest Heq| | |Heq| | |].
  - destruct rest; discriminate.
  - split; [apply at_release | reflexivity].
Qed.

(** Updating one process. *)
Lemma set_gen_lookup i p g c s j q :
  procs (set_gen i p g c s) !! j = Some q ->
  (j = i /\ q = {| proc_mutex := proc_mutex p; proc_gen := g |}) \/
  (j <> i /\ procs s !! j = Some q).
Proof.
  unfold set_gen; cbn [procs]. intros Hq.
  apply list_lookup_insert_Some in Hq as [(-> & <- & _) | (Hne & Hq)]; auto.
Qed.

Lemma well_formed_set_gen i p g c s :
  well_formed s -> lock_state (proc_mutex p) g ->
  well_formed (set_gen i p g c s).
Proof.
  intros Hwf Hg j q Hq.
  apply set_gen_lookup in Hq as [(-> & ->) | (_ & Hq)]; [exact Hg | eauto].
Qed.

(** A step of process i keeps the holders unique when it does not make i a
    holder, or i was one already, or nobody else holds i's name. *)
Lemma unique_holder_set_gen i p g c s :
  procs s !! i = Some p ->
  unique_holder s ->
  (holding {| proc_mutex := proc_mutex p; proc_gen := g |} = true ->
   holding p = true \/
   forall j q, procs s !! j = Some q -> proc_mutex q = proc_mutex p ->
               holding q = true -> j = i) ->
  unique_holder (set_gen i p g c s).
Proof.
  intros Hp Huniq Hnew a b pa pb Ha Hb Hname Hha Hhb.
  apply set_gen_lookup in Ha as [(-> & ->) | (Hai & Ha)];
    apply set_gen_lookup in Hb as [(-> & ->) | (Hbi & Hb)];
    cbn [proc_mutex] in *.
  - reflexivity.
  - destruct (Hnew Hha) as [Hold | Hfree].
    + exact (Huniq _ _ _ _ Hp Hb Hname Hold Hhb).
    + symmetry. now apply (Hfree b pb).
  - destruct (Hnew Hhb) as [Hold | Hfree].
    + exact (Huniq _ _ _ _ Ha Hp Hname Hha Hold).
    + now apply (Hfree a pa).
  - exact (Huniq _ _ _ _ Ha Hb Hname Hha Hhb).
Qed.

Lemma leased_holder s q j :
  leased s = true -> procs s !! j = Some q -> holding q = true ->
  is_Some (lookup_live (proc_mutex q) "mutex" (shared s)).
Proof.
  unfold leased. intros Hall Hq Hh.
  rewrite forallb_forall in Hall.
  specialize (Hall q (proj1 (list_elem_of_In _ _) (list_elem_of_lookup_2 _ _ _ Hq))).
  rewrite Hh in Hall. cbn in Hall. now apply bool_decide_eq_true in Hall.
Qed.

Lemma add_true_free key v ttl ns c :
  fst (add key v ttl ns c) = true -> lookup_live key ns c = None.
Proof. unfold add. destruct (lookup_live key ns c); [discriminate | reflexivity]. Qed.

(** One step from a leased state keeps the generators in place and the
    holders unique. *)
Lemma fire_invariant l s s' :
  well_formed s -> unique_holder s -> leased s = true ->
  fire l s = Some s' ->
  well_formed s' /\ unique_holder s'.
Proof.
  intros Hwf Huniq Hleased Hfire.
  destruct l as [i | i r | i r | d]; cbn [fire] in Hfire.
  - destruct (procs s !! i) as [p|] eqn:Hp; [|discriminate].
    pose proof (Hwf i p Hp) as Hst.
    destruct (proc_gen p) as [key v ttl ns k | key ns k | k | secs k | k | e |] eqn:Hgen;
      try discriminate.
    + apply lock_state_add in Hst as (-> & -> & Htrue & Hfalse & Hnh).
      pose proof (add_true_free (proc_mutex p) v ttl "mutex" (shared s)) as Hfree.
      destruct (add (proc_mutex p) v ttl "mutex" (shared s)) as [[|] c];
        injection Hfire as <-.
      * split.
        { apply well_formed_set_gen; [exact Hwf|]. rewrite Htrue. apply at_yield. }
        apply unique_holder_set_gen; [exact Hp | exact Huniq |].
        intros _. right. intros j q Hq Hname Hh.
        destruct (leased_holder s q j Hleased Hq Hh) as [e He].
        rewrite Hname, (Hfree eq_refl) in He. discriminate He.
      * split; [now apply well_formed_set_gen|].
        apply unique_holder_set_gen; [exact Hp | exact Huniq |].
        rewrite Hnh. discriminate.
    + apply lock_state_delete in Hst as (-> & -> & Hk & Hnh).
      injection Hfire as <-.
      split; [now apply well_formed_set_gen|].
      apply unique_holder_set_gen; [exact Hp | exact Huniq |].
      rewrite Hnh. discriminate.
    + apply lock_state_sleep in Hst as (Hk & Hnh).
      injection Hfire as <-.
      destruct (negative secs).
      * split; [apply well_formed_set_gen; [exact Hwf | apply at_raise]|].
        apply unique_holder_set_gen; [exact Hp | exact Huniq |]. discriminate.
      * split; [now apply well_formed_set_gen|].
        apply unique_holder_set_gen; [exact Hp | exact Huniq |].
        rewrite Hnh. discriminate.
  - destruct (procs s !! i) as [p|] eqn:Hp; [|discriminate].
    pose proof (Hwf i p Hp) as Hst.
    destruct (proc_gen p) as [key v ttl ns k | key ns k | k | secs k | k | e |] eqn:Hgen;
      try discriminate.
    destruct (Qle_bool (inject_Z 0) r && negb (Qle_bool (inject_Z 1) r));
      [|discriminate].
    apply (lock_state_draw _ _ r) in Hst as (Hk & Hnh).
    injection Hfire as <-.
    split; [now apply well_formed_set_gen|].
    apply unique_holder_set_gen; [exact Hp | exact Huniq |].
    rewrite Hnh. discriminate.
  - destruct (procs s !! i) as [p|] eqn:Hp; [|discriminate].
    pose proof (Hwf i p Hp) as Hst.
    destruct (proc_gen p) as [key v ttl ns k | key ns k | k | secs k | k | e |] eqn:Hgen;
      try discriminate.
    apply (lock_state_yield _ _ r) in Hst as (Hk & Hh).
    injection Hfire as <-.
    split; [now apply well_formed_set_gen|].
    apply unique_holder_set_gen; [exact Hp | exact Huniq |].
    intros _. left. unfold holding. now rewrite Hgen.
  - destruct (Qle_bool d (inject_Z 0)); [discriminate|].
    injection Hfire as <-. split; assumption.
Qed.

Lemma lock_not_holding mutex expiry retries backoff :
  holding (start mutex expiry retries backoff) = false.
Proof. unfold start, holding, lock; cbn. now destruct (xrange retries). Qed.

Lemma boot_lookup c calls i p :
  procs (boot c calls) !! i = Some p ->
  exists mutex expiry retries backoff, p = start mutex expiry retries backoff.
Proof.
  unfold boot; cbn [procs]. rewrite list_lookup_fmap.
  destruct (calls !! i) as [[[[m e] n] b]|]; [|discriminate].
  intros [= <-]. eauto.
Qed.

Lemma boot_well_formed c calls : well_formed (boot c calls).
Proof.
  intros i p Hp. apply boot_lookup in Hp as (m & e & n & b & ->). apply at_attempt.
Qed.

Lemma boot_unique_holder c calls : unique_holder (boot c calls).
Proof.
  intros i j p q Hp _ _ Hh _.
  apply boot_lookup in Hp as (m & e & n & b & ->).
  rewrite lock_not_holding in Hh. discriminate.
Qed.

Lemma unique_holder_exclusive s : unique_holder s -> exclusive s.
Proof.
  intros Huniq i j p q Hp Hq Hname Hbp Hbq.
  apply (Huniq i j p q Hp Hq Hname); unfold in_block, holding in *.
  - destruct (proc_gen p); congruence.
  - destruct (proc_gen q); congruence.
Qed.

(** A holder in time has its entry, alive. *)
Lemma in_time_lookup s ds i d :
  in_time s ds = true -> ds !! i = Some d -> (now (shared s) < d)%Q.
Proof.
  unfold in_time. intros Hall Hd. rewrite forallb_forall in Hall.
  specialize (Hall (i, d)
    (proj1 (list_elem_of_In _ _) (proj2 (elem_of_map_to_list ds i d) Hd))).
  cbn [snd] in Hall. apply negb_true_iff in Hall.
  apply Qnot_le_lt. intros Hle. apply Qle_bool_iff in Hle. congruence.
Qed.

Lemma noted_lookup_live s ds i p :
  noted s ds -> in_time s ds = true ->
  procs s !! i = Some p -> holding p = true ->
  is_Some (lookup_live (proc_mutex p) "mutex" (shared s)).
Proof.
  intros Hnoted Htime Hp Hh. destruct (Hnoted i p Hp Hh) as (e & He & Hd).
  pose proof (in_time_lookup s ds i _ Htime Hd) as Hnow.
  unfold lookup_live, live. rewrite He.
  destruct (Qle_bool (expires e) (now (shared s))) eqn:Hle; [|cbn; eauto].
  apply Qle_bool_iff in Hle. lra.
Qed.

Lemma noted_leased s ds : noted s ds -> in_time s ds = true -> leased s = true.
Proof.
  intros Hnoted Htime. unfold leased. apply forallb_forall. intros p Hin.
  apply list_elem_of_In, list_elem_of_lookup_1 in Hin as [i Hp].
  destruct (holding p) eqn:Hh; [|reflexivity]. cbn.
  apply bool_decide_eq_true. eapply noted_lookup_live; eauto.
Qed.

(** One process moves, the store becomes [c] and the notes [ds']: the
    holders stay noted when the entries and notes of the other holders are
    as they were and the mover, if it holds afterwards, is noted. *)
Lemma noted_set_gen s ds i p g c ds' :
  noted s ds ->
  (forall j q, j <> i -> procs s !! j = Some q -> holding q = true ->
               store c !! ("mutex", proc_mutex q)
               = store (shared s) !! ("mutex", proc_mutex q) /\
               ds' !! j = ds !! j) ->
  (holding {| proc_mutex := proc_mutex p; proc_gen := g |} = true ->
   exists e, store c !! ("mutex", proc_mutex p) = Some e /\
             ds' !! i = Some (expires e)) ->
  noted (set_gen i p g c s) ds'.
Proof.
  intros Hnoted Hothers Hmover j q Hq Hh.
  apply set_gen_lookup in Hq as [(-> & ->) | (Hne & Hq)]; cbn [set_gen shared].
  - now apply Hmover.
  - destruct (Hothers j q Hne Hq Hh) as [-> ->]. now apply (Hnoted j q).
Qed.

(** One step from a state in time keeps the holders noted. *)
Lemma fire_noted l s s' ds :
  well_formed s -> unique_holder s -> noted s ds -> in_time s ds = true ->
  fire l s = Some s' ->
  noted s' (note l s ds).
Proof.
  intros Hwf Huniq Hnoted Htime Hfire.
  destruct l as [i | i r | i r | d]; cbn [fire note] in *.
  - destruct (procs s !! i) as [p|] eqn:Hp; [|discriminate].
    pose proof (Hwf i p Hp) as Hst.
    destruct (proc_gen p) as [key v ttl ns k | key ns k | k | secs k | k | e |] eqn:Hgen;
      try discriminate.
    + apply lock_state_add in Hst as (-> & -> & Htrue & Hfalse & Hnh).
      unfold add in *.
      destruct (lookup_live (proc_mutex p) "mutex" (shared s)) as [e0|] eqn:Hlive;
        cbn [fst] in *; injection Hfire as <-.
      * apply (noted_set_gen s ds); [exact Hnoted | auto |].
        rewrite Hnh. discriminate.
      * apply (noted_set_gen s ds); [exact Hnoted | |].
        -- intros j q Hne Hq Hh. cbn [store]. split.
           ++ apply lookup_insert_ne. intros [= Hname].
              destruct (noted_lookup_live s ds j q Hnoted Htime Hq Hh) as [e He].
              rewrite <- Hname, Hlive in He. discriminate.
           ++ now apply lookup_insert_ne.
        -- intros _. eexists. cbn [store]. rewrite !lookup_insert_eq.
           split; reflexivity.
    + apply lock_state_delete in Hst as (-> & -> & Hk & Hnh).
      injection Hfire as <-.
      apply (noted_set_gen s ds); [exact Hnoted | |].
      * intros j q Hne Hq Hh. cbn [delete store]. split.
        -- apply lookup_delete_ne. intros [= Hname]. apply Hne.
           apply (Huniq j i q p Hq Hp); [now symmetry | exact Hh |].
           unfold holding. now rewrite Hgen.
        -- now apply lookup_delete_ne.
      * rewrite Hnh. discriminate.
    + apply lock_state_sleep in Hst as (Hk & Hnh).
      injection Hfire as <-.
      apply (noted_set_gen s ds); [exact Hnoted | auto |].
      destruct (negative secs); [discriminate | rewrite Hnh; discriminate].
  - destruct (procs s !! i) as [p|] eqn:Hp; [|discriminate].
    pose proof (Hwf i p Hp) as Hst.
    destruct (proc_gen p) as [key v ttl ns k | key ns k | k | secs k | k | e |] eqn:Hgen;
      try discriminate.
    destruct (Qle_bool (inject_Z 0) r && negb (Qle_bool (inject_Z 1) r));
      [|discriminate].
    apply (lock_state_draw _ _ r) in Hst as (Hk & Hnh).
    injection Hfire as <-.
    apply (noted_set_gen s ds); [exact Hnoted | auto |].
    rewrite Hnh. discriminate.
  - destruct (procs s !! i) as [p|] eqn:Hp; [|discriminate].
    destruct (proc_gen p) as [key v ttl ns k | key ns k | k | secs k | k | e |] eqn:Hgen;
      try discriminate.
    injection Hfire as <-.
    apply (noted_set_gen s ds); [exact Hnoted | auto |].
    intros _. apply (Hnoted i p Hp). unfold holding. now rewrite Hgen.
  - destruct (Qle_bool d (inject_Z 0)); [discriminate|].
    injection Hfire as <-. exact Hnoted.
Qed.

Lemma exec_in_time_invariant ls : forall s ds s' ds',
  well_formed s -> unique_holder s -> noted s ds -> in_time s ds = true ->
  exec_in_time ls s ds = Some (s', ds') ->
  well_formed s' /\ unique_holder s' /\ noted s' ds' /\ in_time s' ds' = true.
Proof.
  induction ls as [|l ls IH]; intros s ds s' ds' Hwf Huniq Hnoted Htime Hexec;
    cbn [exec_in_time] in Hexec.
  - injection Hexec as <- <-. auto.
  - destruct (fire l s) as [s1|] eqn:Hfire; [|discriminate].
    destruct (in_time s1 (note l s ds)) eqn:Htime1; [|discriminate].
    destruct (fire_invariant l s s1 Hwf Huniq (noted_leased s ds Hnoted Htime) Hfire)
      as [Hwf1 Huniq1].
    pose proof (fire_noted l s s1 ds Hwf Huniq Hnoted Htime Hfire) as Hnoted1.
    exact (IH s1 (note l s ds) s' ds' Hwf1 Huniq1 Hnoted1 Htime1 Hexec).
Qed.

Lemma boot_noted c calls : noted (boot c calls) ∅.
Proof.
  intros i p Hp Hh. apply boot_lookup in Hp as (m & e & n & b & ->).
  rewrite lock_not_holding in Hh. discriminate.
Qed.

(** C1 (as amended) -- mutual exclusion before the expiry: along every
    execution of processes calling lock in which no holder, from its
    successful add to its delete, reaches the instant at which its entry
    expires (the instant of the add plus the expiry), no two processes
    locking on the same name are inside their blocks at the same time; at
    most one process per name is between its add and its delete, and while
    it is, the add of every other process on that name is answered false. *)
Theorem mutual_exclusion_in_time
  (c : cache) (calls : list (string * Z * Z * Q)) (ls : list label)
  (s : system) (ds : gmap nat Q) :
  exec_in_time ls (boot c calls) ∅ = Some (s, ds) ->
  exclusive s /\
  unique_holder s /\
  (forall i j p q key v ttl ns k,
     procs s !! i = Some p -> holding p = true ->
     procs s !! j = Some q -> proc_mutex q = proc_mutex p ->
     proc_gen q = MemcacheAdd key v ttl ns k ->
     fst (add key v ttl ns (shared s)) = false).
Proof.
  intros Hexec.
  destruct (exec_in_time_invariant ls (boot c calls) ∅ s ds) as
    (Hwf & Huniq & Hnoted & Htime);
    auto using boot_well_formed, boot_unique_holder, boot_noted.
  split; [now apply unique_holder_exclusive|]. split; [exact Huniq|].
  intros i j p q key v ttl ns k Hp Hh Hq Hname Hgen.
  pose proof (Hwf j q Hq) as Hst. rewrite Hgen in Hst.
  apply lock_state_add in Hst as (-> & -> & _).
  destruct (noted_lookup_live s ds i p Hnoted Htime Hp Hh) as [e He].
  unfold add. rewrite Hname, He. reflexivity.
Qed.

Lemma mutual_exclusion_in_time_witness :
  exclusive
    (fst (default (boot Cache.empty [], ∅)
       (exec_in_time
          [Call 0; Tick (inject_Z 599); Call 1; Draw 1 (1 # 2); BlockEnds 0 Next;
           Call 0; Call 1; Call 1]
          (boot Cache.empty [("order:42", 600, 5, inject_Z 2);
                             ("order:42", 600, 5, inject_Z 2)]) ∅))).
Proof.
  apply (mutual_exclusion_in_time Cache.empty
           [("order:42", 600, 5, inject_Z 2); ("order:42", 600, 5, inject_Z 2)]
           [Call 0; Tick (inject_Z 599); Call 1; Draw 1 (1 # 2); BlockEnds 0 Next;
            Call 0; Call 1; Call 1]
           _
           (snd (default (boot Cache.empty [], ∅)
              (exec_in_time
                 [Call 0; Tick (inject_Z 599); Call 1; Draw 1 (1 # 2);
                  BlockEnds 0 Next; Call 0; Call 1; Call 1]
                 (boot Cache.empty [("order:42", 600, 5, inject_Z 2);
                                    ("order:42", 600, 5, inject_Z 2)]) ∅)))).
  vm_compute. reflexivity.
Defined.

(** C1, as stated, fails: the first process adds the entry and enters its
    block; 600 seconds later the entry has expired, the second process's add
    succeeds, and both are inside their blocks on the same name. *)
Lemma mutual_exclusion_counterexample :
  exists s p q,
    exec [Call 0; Tick (inject_Z 600); Call 1]
         (boot Cache.empty [("order:42", 600, 5, inject_Z 2);
                            ("order:42", 600, 5, inject_Z 2)]) = Some s /\
    procs s !! 0%nat = Some p /\ procs s !! 1%nat = Some q /\
    proc_mutex p = proc_mutex q /\
    in_block p = true /\ in_block q = true /\
    ~ exclusive s.
Proof.
  eexists. eexists. eexists.
  split; [reflexivity|]. split; [reflexivity|]. split; [reflexivity|].
  split; [reflexivity|]. split; [reflexivity|]. split; [reflexivity|].
  intros Hex.
  specialize (Hex 0%nat 1%nat _ _ eq_refl eq_refl eq_refl eq_refl eq_refl).
  discriminate Hex.
Qed.

End SystemSpec.

(** ** Lock names from identities *)

Module NeodbSpec.
Import Py Neodb.

Lemma names_pairs (k : Key) :
  names k = flat_map (fun p => [fst p; str (snd p)]) (pairs k).
Proof.
  unfold names, flat. induction (pairs k) as [|[kind id] ps IH]; [reflexivity|].
  cbn. now rewrite IH.
Qed.

Lemma names_shape (k : Key) :
  names k = [] \/ exists x y l, names k = x :: y :: l.
Proof.
  rewrite names_pairs. destruct (pairs k) as [|[kind id] ps]; [now left|].
  right. cbn. eauto.
Qed.

Lemma append_empty (s : string) : ("" ++ s)%string = s.
Proof. reflexivity. Qed.

Lemma append_String a (s t : string) :
  (String a s ++ t)%string = String a (s ++ t).
Proof. reflexivity. Qed.

Lemma occurs_middle c y r : occurs c (y ++ String c r) = true.
Proof.
  induction y as [|a y IH]; rewrite ?append_empty, ?append_String; cbn [occurs].
  - now rewrite Ascii.eqb_refl.
  - now destruct (Ascii.eqb a c).
Qed.

(** Up to the first separator two joined strings agree part by part. *)
Lemma app_sep_inj c x : forall y r r',
  occurs c x = false -> occurs c y = false ->
  (x ++ String c r = y ++ String c r')%string -> x = y /\ r = r'.
Proof.
  induction x as [|a x IH]; intros [|b y] r r' Hx Hy Heq;
    rewrite ?append_empty, ?append_String in Heq; cbn [occurs] in *.
  - now injection Heq as ->.
  - injection Heq as <- _. rewrite Ascii.eqb_refl in Hy. discriminate.
  - injection Heq as -> _. rewrite Ascii.eqb_refl in Hx. discriminate.
  - injection Heq as <- Heq.
    destruct (Ascii.eqb a c); [discriminate|].
    destruct (IH y r r' Hx Hy Heq) as [-> ->]. auto.
Qed.

Lemma join_cons_cons c x y l :
  join (String c "") (x :: y :: l)
  = (x ++ String c (join (String c "") (y :: l)))%string.
Proof. reflexivity. Qed.

Lemma join_inj c : forall l1 l2,
  l1 <> [] -> l2 <> [] -> free_of c l1 -> free_of c l2 ->
  join (String c "") l1 = join (String c "") l2 -> l1 = l2.
Proof.
  induction l1 as [|x l1 IH]; intros [|y l2] Hne1 Hne2 Hf1 Hf2 Heq;
    try congruence.
  apply Forall_cons in Hf1 as [Hx Hf1]. apply Forall_cons in Hf2 as [Hy Hf2].
  destruct l1 as [|x' l1], l2 as [|y' l2].
  - cbn in Heq. congruence.
  - rewrite join_cons_cons in Heq. cbn in Heq. subst x.
    rewrite occurs_middle in Hx. discriminate.
  - rewrite join_cons_cons in Heq. cbn in Heq. subst y.
    rewrite occurs_middle in Hy. discriminate.
  - rewrite !join_cons_cons in Heq.
    apply app_sep_inj in Heq as [-> Heq]; try assumption.
    f_equal. apply IH; first [discriminate | assumption].
Qed.

Lemma join_names_inj c k1 k2 :
  free_of c (names k1) -> free_of c (names k2) ->
  join (String c "") (names k1) = join (String c "") (names k2) ->
  names k1 = names k2.
Proof.
  intros Hf1 Hf2 Heq.
  destruct (names_shape k1) as [E1 | (x1 & y1 & l1 & E1)],
           (names_shape k2) as [E2 | (x2 & y2 & l2 & E2)];
    rewrite E1, E2 in *.
  - reflexivity.
  - rewrite join_cons_cons in Heq. cbn in Heq. destruct x2; discriminate.
  - rewrite join_cons_cons in Heq. cbn in Heq. destruct x1; discriminate.
  - apply (join_inj c); first [discriminate | assumption].
Qed.

(** C5 (as amended) -- for an item with a key, as_path is the join, by the
    separator (':' by default), of kind1, str(id1), kind2, str(id2), ...,
    root first, so it is a function of the key and the separator alone; and
    with a one-character separator that occurs in none of the string forms,
    two keys whose sequences of string forms differ have different paths. *)
Theorem as_path_flattening (it : item) (k : Key) (separator : string) :
  as_key it = Some k ->
  as_path it separator
    = Ok (Some (join separator
                  (flat_map (fun p => [fst p; str (snd p)]) (pairs k)))) /\
  as_path it default_separator
    = Ok (Some (join ":" (flat_map (fun p => [fst p; str (snd p)]) (pairs k)))) /\
  (forall it' k' c,
     as_key it' = Some k' ->
     free_of c (names k) -> free_of c (names k') ->
     names k <> names k' ->
     as_path it (String c "") <> as_path it' (String c "")).
Proof.
  intros Hk.
  assert (Hpath : forall i key sep, as_key i = Some key ->
            as_path i sep = Ok (Some (join sep (names key)))).
  { intros i key sep Hi. unfold as_path. rewrite Hi. now destruct i. }
  rewrite <- names_pairs. split; [now apply Hpath|]. split; [now apply Hpath|].
  intros it' k' c Hk' Hf Hf' Hne Heq.
  rewrite (Hpath it k _ Hk), (Hpath it' k' _ Hk') in Heq.
  injection Heq as Heq. now apply Hne, (join_names_inj c).
Qed.

Lemma as_path_flattening_witness :
  as_path (AnEntity (Some {| pairs := [("Customer", Str "k3Xq"); ("Order", Int 42)] |})) "/"
    = Ok (Some "Customer/k3Xq/Order/42") /\
  as_path (AKey {| pairs := [("Customer", Str "k3Xq"); ("Order", Int 42)] |}) ":"
    <> as_path (AKey {| pairs := [("Order", Int 42); ("Customer", Str "k3Xq")] |}) ":".
Proof.
  split.
  - apply (as_path_flattening
             (AnEntity (Some {| pairs := [("Customer", Str "k3Xq"); ("Order", Int 42)] |}))
             {| pairs := [("Customer", Str "k3Xq"); ("Order", Int 42)] |} "/").
    reflexivity.
  - apply (as_path_flattening
             (AKey {| pairs := [("Customer", Str "k3Xq"); ("Order", Int 42)] |})
             {| pairs := [("Customer", Str "k3Xq"); ("Order", Int 42)] |} ":" eq_refl)
      with (k' := {| pairs := [("Order", Int 42); ("Customer", Str "k3Xq")] |}).
    + reflexivity.
    + repeat constructor.
    + repeat constructor.
    + vm_compute. discriminate.
Defined.

(** C5, as stated, fails: these two keys order the same two (kind, id) pairs
    differently, one id the integer 1 and the other the string '1', and
    both flatten to K:1:K:1. *)
Lemma as_path_counterexample :
  Permutation [("K", Int 1); ("K", Str "1")] [("K", Str "1"); ("K", Int 1)] /\
  {| pairs := [("K", Int 1); ("K", Str "1")] |}
    <> {| pairs := [("K", Str "1"); ("K", Int 1)] |} /\
  as_path (AKey {| pairs := [("K", Int 1); ("K", Str "1")] |}) ":"
    = Ok (Some "K:1:K:1") /\
  as_path (AKey {| pairs := [("K", Str "1"); ("K", Int 1)] |}) ":"
    = Ok (Some "K:1:K:1").
Proof.
  split; [apply perm_swap|]. split; [discriminate|]. split; reflexivity.
Qed.

(** C6, as stated, fails: an incomplete key (its id still None) and no item
    at all are both invalid identities, and each is answered with a value,
    not with an error. *)
Lemma as_path_invalid_counterexample :
  invalid_identity (AKey {| pairs := [("Order", NoneId)] |}) /\
  as_path (AKey {| pairs := [("Order", NoneId)] |}) ":" = Ok (Some "Order:None") /\
  invalid_identity NoItem /\
  as_path NoItem ":" = Ok None.
Proof.
  repeat split; cbn; auto.
Qed.

End NeodbSpec.

(** ** Plurals *)

Module PluralsSpec.
Import Py Plurals.

Local Open Scope string_scope.

(** *** Strings as rows of characters *)

Lemma append_nil_r (s : string) : s ++ "" = s.
Proof. induction s as [|a s IH]; [reflexivity|]. now rewrite NeodbSpec.append_String, IH. Qed.

Lemma append_assoc (a b c : string) : (a ++ b) ++ c = a ++ (b ++ c).
Proof.
  induction a as [|x a IH]; [reflexivity|].
  now rewrite !NeodbSpec.append_String, IH.
Qed.

Lemma length_append (a b : string) :
  String.length (a ++ b) = (String.length a + String.length b)%nat.
Proof.
  induction a as [|x a IH]; [reflexivity|].
  rewrite NeodbSpec.append_String. cbn [String.length]. now rewrite IH.
Qed.

Lemma chars_append (a b : string) : chars (a ++ b) = (chars a ++ chars b)%list.
Proof.
  unfold chars. induction a as [|x a IH]; [reflexivity|].
  rewrite NeodbSpec.append_String. cbn [list_ascii_of_string]. now rewrite IH.
Qed.

Lemma chars_inj (a b : string) : chars a = chars b -> a = b.
Proof.
  unfold chars. intros Heq.
  rewrite <- (string_of_list_ascii_of_string a), Heq.
  apply string_of_list_ascii_of_string.
Qed.

Lemma chars_length (s : string) : length (chars s) = String.length s.
Proof. unfold chars. induction s as [|x s IH]; [reflexivity|]. cbn. now rewrite IH. Qed.

Lemma one_line_append (a b : string) :
  one_line (a ++ b) <-> one_line a /\ one_line b.
Proof. unfold one_line. rewrite chars_append. apply Forall_app. Qed.

(** Two words that end alike: equal last parts of equal length leave equal
    stems. *)
Lemma append_inj_tail (a b s t : string) :
  String.length s = String.length t -> a ++ s = b ++ t -> a = b /\ s = t.
Proof.
  intros Hlen Heq. apply (f_equal chars) in Heq. rewrite !chars_append in Heq.
  apply app_inj_2 in Heq as [Ha Hs]; [|now rewrite !chars_length].
  split; now apply chars_inj.
Qed.

Lemma substring_prefix (p q : string) : substring 0 (String.length p) (p ++ q) = p.
Proof.
  induction p as [|x p IH].
  - cbn. now destruct q.
  - rewrite NeodbSpec.append_String. cbn. now rewrite IH.
Qed.

Lemma substring_length (m : nat) (s : string) :
  String.length (substring 0 m s) = Nat.min m (String.length s).
Proof.
  revert m. induction s as [|x s IH]; intros [|m]; cbn; try reflexivity.
  now rewrite IH.
Qed.

(** [(stem + tail)[:-len(tail)]] is the stem. *)
Lemma but_last_append (p q : string) : but_last (String.length q) (p ++ q) = p.
Proof.
  unfold but_last. rewrite length_append.
  replace (String.length p + String.length q - String.length q)%nat
    with (String.length p) by lia.
  apply substring_prefix.
Qed.

Lemma but_last_length (n : nat) (w : string) :
  String.length (but_last n w) = (String.length w - n)%nat.
Proof. unfold but_last. rewrite substring_length. lia. Qed.

(** *** What the patterns match *)

Lemma re_match_plus (a : atom) (rest : list piece) (c : ascii) (s : string) :
  re_match (Plus a :: rest) (String c s)
  = atom_ok a c && (re_match rest s || re_match (Plus a :: rest) s).
Proof. reflexivity. Qed.

Lemma re_match_plus_intro (rest : list piece) (p s : string) :
  p <> "" -> one_line p -> re_match rest s = true ->
  re_match (Plus Dot :: rest) (p ++ s) = true.
Proof.
  intros Hne Hline Hrest. induction p as [|c p IH]; [congruence|].
  rewrite NeodbSpec.append_String, re_match_plus.
  apply Forall_cons in Hline as [Hc Hline].
  assert (Hdot : atom_ok Dot c = true).
  { cbn. apply negb_true_iff, Ascii.eqb_neq, Hc. }
  rewrite Hdot. cbn [andb].
  destruct p as [|c' p].
  - rewrite NeodbSpec.append_empty, Hrest. reflexivity.
  - rewrite IH by (congruence || assumption). apply orb_true_r.
Qed.

Lemma re_match_plus_elim (rest : list piece) (s : string) :
  re_match (Plus Dot :: rest) s = true ->
  exists p s', s = p ++ s' /\ p <> "" /\ one_line p /\ re_match rest s' = true.
Proof.
  induction s as [|c s IH]; [discriminate|].
  rewrite re_match_plus. intros Hm.
  apply andb_true_iff in Hm as [Hdot Hm].
  assert (Hc : c <> newline).
  { cbn in Hdot. now apply negb_true_iff, Ascii.eqb_neq in Hdot. }
  apply orb_true_iff in Hm as [Hrest | Hplus].
  - exists (String c ""), s. repeat split; [discriminate | | exact Hrest].
    now repeat constructor.
  - destruct (IH Hplus) as (p & s' & -> & _ & Hline & Hrest).
    exists (String c p), s'. repeat split; [discriminate | | exact Hrest].
    now constructor.
Qed.

Lemma re_match_lits (suf : string) (rest : list piece) (s : string) :
  re_match (lits suf ++ rest) s = true <->
  exists s', s = suf ++ s' /\ re_match rest s' = true.
Proof.
  revert s. induction suf as [|d suf IH]; intros s.
  - cbn. split; [eauto | now intros (s' & -> & H)].
  - change (lits (String d suf) ++ rest)%list
      with (One (Lit d) :: (lits suf ++ rest))%list.
    destruct s as [|c s]; cbn [re_match].
    + split; [discriminate | intros (s' & Heq & _); discriminate].
    + fold (re_match (lits suf ++ rest)).
      rewrite andb_true_iff, IH. cbn [atom_ok]. rewrite Ascii.eqb_eq. split.
      * intros (-> & s' & -> & Hrest). eauto.
      * intros (s' & Heq & Hrest). rewrite NeodbSpec.append_String in Heq.
        injection Heq as -> ->. eauto.
Qed.

Lemma at_end_one_line (s : string) : one_line s -> at_end s = true -> s = "".
Proof.
  destruct s as [|c [|c' s]]; cbn; try discriminate; [reflexivity|].
  intros Hline Hc. apply Forall_cons in Hline as [Hne _].
  apply Ascii.eqb_eq in Hc. contradiction.
Qed.

(** On a word without newlines, [.+suf$] matches exactly the words that are
    a non-empty stem followed by [suf]. *)
Lemma suffix_rule (suf w : string) :
  one_line w ->
  re_match (Plus Dot :: lits suf ++ [Dollar]) w = true <->
  exists p, p <> "" /\ w = p ++ suf.
Proof.
  intros Hline. split.
  - intros Hm. apply re_match_plus_elim in Hm as (p & s' & -> & Hne & _ & Hm).
    apply re_match_lits in Hm as (s'' & -> & Hend).
    cbn in Hend. rewrite andb_true_r in Hend.
    apply one_line_append in Hline as [_ Hline].
    apply one_line_append in Hline as [_ Hline].
    rewrite (at_end_one_line s'' Hline Hend), append_nil_r. eauto.
  - intros (p & Hne & ->). apply one_line_append in Hline as [Hp _].
    apply re_match_plus_intro; [assumption..|].
    apply re_match_lits. exists "". now rewrite append_nil_r.
Qed.

(** Likewise [.+[^aeiou]y$]: a non-empty stem, a character that is no
    vowel, and y. *)
Lemma y_rule (w : string) :
  one_line w ->
  re_match (Plus Dot :: One (NoneOf vowels) :: lits "y" ++ [Dollar]) w = true <->
  exists p c, p <> "" /\ existsb (Ascii.eqb c) vowels = false /\
              w = p ++ String c "y".
Proof.
  intros Hline. split.
  - intros Hm. apply re_match_plus_elim in Hm as (p & s' & -> & Hne & _ & Hm).
    destruct s' as [|c s']; [discriminate|]. cbn [re_match] in Hm.
    apply andb_true_iff in Hm as [Hc Hm].
    fold (re_match (lits "y" ++ [Dollar])) in Hm.
    apply re_match_lits in Hm as (s'' & -> & Hend).
    cbn in Hend. rewrite andb_true_r in Hend.
    apply one_line_append in Hline as [_ Hline].
    change (String c ("y" ++ s'')) with (String c "y" ++ s'') in *.
    apply one_line_append in Hline as [_ Hline].
    rewrite (at_end_one_line s'' Hline Hend), append_nil_r.
    exists p, c. repeat split; [assumption|]. cbn in Hc. now apply negb_true_iff in Hc.
  - intros (p & c & Hne & Hc & ->). apply one_line_append in Hline as [Hp _].
    apply re_match_plus_intro; [assumption..|].
    cbn [re_match]. fold (re_match (lits "y" ++ [Dollar])).
    apply andb_true_iff. split; [unfold atom_ok; now rewrite Hc|].
    apply re_match_lits. exists "". split; reflexivity.
Qed.

Lemma suffix_rule_mismatch (suf suf1 suf2 a t : string) :
  suf = suf1 ++ suf2 ->
  one_line (a ++ t) -> String.length t = String.length suf2 -> t <> suf2 ->
  re_match (Plus Dot :: lits suf ++ [Dollar]) (a ++ t) = false.
Proof.
  intros -> Hline Hlen Hne. apply not_true_is_false. intros Hm.
  apply suffix_rule in Hm as (p & _ & Heq); [|exact Hline].
  rewrite <- append_assoc in Heq.
  apply append_inj_tail in Heq as [_ Heq]; [contradiction | exact Hlen].
Qed.

Lemma y_rule_mismatch (a : string) (c : ascii) :
  one_line (a ++ String c "") -> c <> "y"%char ->
  re_match (Plus Dot :: One (NoneOf vowels) :: lits "y" ++ [Dollar])
           (a ++ String c "") = false.
Proof.
  intros Hline Hne. apply not_true_is_false. intros Hm.
  apply y_rule in Hm as (p & d & _ & _ & Heq); [|exact Hline].
  change (String d "y") with (String d "" ++ "y") in Heq.
  rewrite <- append_assoc in Heq.
  apply append_inj_tail in Heq as [_ [= ->]]; [contradiction | reflexivity].
Qed.

Lemma append_char (p : string) (c : ascii) (s : string) :
  (p ++ String c "") ++ s = p ++ String c s.
Proof. now rewrite append_assoc. Qed.

Lemma not_vowel (c : ascii) : ~ In c vowels -> existsb (Ascii.eqb c) vowels = false.
Proof.
  intros Hnot. apply not_true_is_false. intros Hex.
  apply existsb_exists in Hex as (v & Hin & Heq).
  apply Ascii.eqb_eq in Heq. now subst v.
Qed.

Lemma one_line_char (c : ascii) (s : string) :
  one_line (String c s) <-> c <> newline /\ one_line s.
Proof.
  unfold one_line, chars. cbn [list_ascii_of_string]. split.
  - intros Hall. inversion Hall; subst. auto.
  - intros [Hc Hs]. now constructor.
Qed.

Ltac one_line_tac :=
  repeat match goal with
    | H : one_line (_ ++ _) |- _ => apply one_line_append in H as [? ?]
    | H : one_line (String _ _) |- _ => apply one_line_char in H as [? ?]
    end;
  repeat match goal with
    | |- one_line (_ ++ _) => apply one_line_append; split
    | |- one_line (String _ _) => apply one_line_char; split
    | |- one_line EmptyString => exact (Forall_nil_2 _)
    | |- _ <> newline => assumption || (unfold newline; discriminate)
    | |- one_line _ => assumption
    end.

Ltac rules :=
  unfold singularize, pluralize, singular_transforms, plural_transforms;
  cbn [first_match].

Lemma suffix_rule_match (suf p : string) :
  p <> "" -> one_line (p ++ suf) ->
  re_match (Plus Dot :: lits suf ++ [Dollar]) (p ++ suf) = true.
Proof. intros Hne Hline. apply suffix_rule; eauto. Qed.

Lemma y_rule_match (p : string) (c : ascii) :
  p <> "" -> one_line (p ++ String c "y") -> ~ In c vowels ->
  re_match (Plus Dot :: One (NoneOf vowels) :: lits "y" ++ [Dollar])
           (p ++ String c "y") = true.
Proof.
  intros Hne Hline Hc. apply y_rule; [exact Hline|].
  exists p, c. auto using not_vowel.
Qed.

Lemma stem_char (p : string) (c : ascii) : p ++ String c "" <> "".
Proof. destruct p; discriminate. Qed.

(** X1 -- a stem, a character that is no vowel, and y: pluralize turns the y
    into ies and singularize turns it back. *)
Theorem consonant_y_round_trip (p : string) (c : ascii) :
  p <> "" -> one_line (p ++ String c "") -> ~ In c vowels ->
  pluralize (p ++ String c "y") = p ++ String c "ies" /\
  singularize (pluralize (p ++ String c "y")) = p ++ String c "y".
Proof.
  intros Hne Hline Hc.
  assert (Hy : one_line (p ++ String c "y")) by one_line_tac.
  assert (Hies : one_line ((p ++ String c "") ++ "ies")) by one_line_tac.
  assert (Hplural : pluralize (p ++ String c "y") = p ++ String c "ies").
  { rules. rewrite (y_rule_match p c Hne Hy Hc).
    rewrite <- (append_char p c "y"), (but_last_append _ "y").
    apply append_char. }
  split; [exact Hplural|]. rewrite Hplural. rules.
  rewrite <- (append_char p c "ies").
  rewrite (suffix_rule_match "ies" _ (stem_char p c) Hies).
  rewrite (but_last_append _ "ies"). apply append_char.
Qed.

Lemma consonant_y_round_trip_witness :
  pluralize "pony" = "ponies" /\ singularize (pluralize "pony") = "pony".
Proof.
  apply (consonant_y_round_trip "po" "n").
  - discriminate.
  - repeat constructor; discriminate.
  - cbn. intuition discriminate.
Defined.

(** X2 -- a word on one line whose last character is none of e, f, y gets
    an s from pluralize, and singularize takes it off again. *)
Theorem regular_round_trip (p : string) (c : ascii) :
  one_line (p ++ String c "") ->
  c <> "e"%char -> c <> "f"%char -> c <> "y"%char ->
  pluralize (p ++ String c "") = p ++ String c "s" /\
  singularize (pluralize (p ++ String c "")) = p ++ String c "".
Proof.
  intros Hline He Hf Hy.
  assert (Hline' : one_line (p ++ String c "s")) by one_line_tac.
  assert (Hs : one_line ((p ++ String c "") ++ "s")) by one_line_tac.
  assert (Hplural : pluralize (p ++ String c "") = p ++ String c "s").
  { rules.
    rewrite (y_rule_mismatch p c Hline Hy).
    rewrite (suffix_rule_mismatch "f" "" "f" p (String c "") eq_refl Hline eq_refl)
      by congruence.
    rewrite (suffix_rule_mismatch "fe" "f" "e" p (String c "") eq_refl Hline eq_refl)
      by congruence.
    apply append_char. }
  split; [exact Hplural|]. rewrite Hplural. rules.
  rewrite (suffix_rule_mismatch "ies" "i" "es" p (String c "s") eq_refl Hline' eq_refl)
    by congruence.
  rewrite (suffix_rule_mismatch "ives" "iv" "es" p (String c "s") eq_refl Hline' eq_refl)
    by congruence.
  rewrite (suffix_rule_mismatch "ves" "v" "es" p (String c "s") eq_refl Hline' eq_refl)
    by congruence.
  rewrite <- (append_char p c "s").
  rewrite (suffix_rule_match "s" _ (stem_char p c) Hs).
  apply (but_last_append _ "s").
Qed.

Lemma regular_round_trip_witness :
  pluralize "book" = "books" /\ singularize (pluralize "book") = "book".
Proof.
  apply (regular_round_trip "boo" "k");
    [repeat constructor; discriminate | discriminate..].
Defined.

(** X3 -- after a character other than i, a word in f and the same word in
    fe share the plural in ves, and singularize answers it with the form
    in f: the e of a word in fe does not come back. *)
Theorem f_and_fe_share_plural (p : string) (c : ascii) :
  one_line (p ++ String c "") -> c <> "i"%char ->
  pluralize (p ++ String c "f") = p ++ String c "ves" /\
  pluralize (p ++ String c "fe") = p ++ String c "ves" /\
  singularize (p ++ String c "ves") = p ++ String c "f".
Proof.
  intros Hline Hi.
  pose proof (stem_char p c) as Hstem.
  assert (Hf : one_line ((p ++ String c "") ++ "f")) by one_line_tac.
  assert (Hfe : one_line ((p ++ String c "") ++ "fe")) by one_line_tac.
  assert (Hf_e : one_line (((p ++ String c "") ++ "f") ++ "e")) by one_line_tac.
  assert (Hves : one_line ((p ++ String c "") ++ "ves")) by one_line_tac.
  assert (Hcves : one_line (p ++ String c "ves")) by one_line_tac.
  split; [|split]; rules.
  - rewrite <- (append_char p c "f").
    rewrite (y_rule_mismatch (p ++ String c "") "f" Hf) by discriminate.
    rewrite (suffix_rule_match "f" _ Hstem Hf).
    rewrite (but_last_append _ "f"). apply append_char.
  - rewrite <- (append_char p c "fe").
    change ((p ++ String c "") ++ "fe") with ((p ++ String c "") ++ "f" ++ "e").
    rewrite <- (append_assoc _ "f" "e").
    rewrite (y_rule_mismatch _ "e" Hf_e) by discriminate.
    rewrite (suffix_rule_mismatch "f" "" "f" _ "e" eq_refl Hf_e eq_refl)
      by discriminate.
    rewrite (append_assoc _ "f" "e").
    change ("f" ++ "e") with "fe".
    rewrite (suffix_rule_match "fe" _ Hstem Hfe).
    rewrite (but_last_append _ "fe"). apply append_char.
  - rewrite <- (append_char p c "ves").
    rewrite (suffix_rule_mismatch "ies" "" "ies" _ "ves" eq_refl Hves eq_refl)
      by discriminate.
    rewrite (append_char p c "ves").
    rewrite (suffix_rule_mismatch "ives" "" "ives" p (String c "ves")
               eq_refl Hcves eq_refl) by congruence.
    rewrite <- (append_char p c "ves").
    rewrite (suffix_rule_match "ves" _ Hstem Hves).
    rewrite (but_last_append _ "ves"). apply append_char.
Qed.

Lemma f_and_fe_share_plural_witness :
  pluralize "leaf" = "leaves" /\ pluralize "leafe" = "leaves" /\
  singularize "leaves" = "leaf".
Proof.
  apply (f_and_fe_share_plural "le" "a");
    [repeat constructor; discriminate | discriminate].
Defined.

(** X4 -- after an i with something before it, a word in f and the same
    word in fe share the plural in ives, and singularize answers it with
    the form in ife: knife comes back, and a word in if gains an e. *)
Theorem if_and_ife_share_plural (q : string) :
  q <> "" -> one_line q ->
  pluralize (q ++ "if") = q ++ "ives" /\
  pluralize (q ++ "ife") = q ++ "ives" /\
  singularize (q ++ "ives") = q ++ "ife".
Proof.
  intros Hne Hline.
  assert (Hstem : q ++ "i" <> "") by apply stem_char.
  assert (Hf : one_line ((q ++ "i") ++ "f")) by one_line_tac.
  assert (Hfe : one_line ((q ++ "i") ++ "fe")) by one_line_tac.
  assert (Hf_e : one_line (((q ++ "i") ++ "f") ++ "e")) by one_line_tac.
  assert (Hves : one_line ((q ++ "i") ++ "ves")) by one_line_tac.
  assert (Hives : one_line (q ++ "ives")) by one_line_tac.
  split; [|split]; rules.
  - change (q ++ "if") with (q ++ String "i" "f").
    rewrite <- (append_char q "i" "f").
    rewrite (y_rule_mismatch (q ++ "i") "f" Hf) by discriminate.
    rewrite (suffix_rule_match "f" _ Hstem Hf).
    rewrite (but_last_append _ "f"). apply append_char.
  - change (q ++ "ife") with (q ++ String "i" "fe").
    rewrite <- (append_char q "i" "fe").
    change ((q ++ "i") ++ "fe") with ((q ++ "i") ++ "f" ++ "e").
    rewrite <- (append_assoc _ "f" "e").
    rewrite (y_rule_mismatch _ "e" Hf_e) by discriminate.
    rewrite (suffix_rule_mismatch "f" "" "f" _ "e" eq_refl Hf_e eq_refl)
      by discriminate.
    rewrite (append_assoc _ "f" "e").
    change ("f" ++ "e") with "fe".
    rewrite (suffix_rule_match "fe" _ Hstem Hfe).
    rewrite (but_last_append _ "fe"). apply append_char.
  - change (q ++ "ives") with (q ++ String "i" "ves") at 1 2.
    rewrite <- (append_char q "i" "ves").
    rewrite (suffix_rule_mismatch "ies" "" "ies" _ "ves" eq_refl Hves eq_refl)
      by discriminate.
    rewrite (append_char q "i" "ves").
    change (q ++ String "i" "ves") with (q ++ "ives").
    rewrite (suffix_rule_match "ives" q Hne Hives).
    now rewrite (but_last_append _ "ives").
Qed.

Lemma if_and_ife_share_plural_witness :
  pluralize "knif" = "knives" /\ pluralize "knife" = "knives" /\
  singularize "knives" = "knife".
Proof.
  apply (if_and_ife_share_plural "kn");
    [discriminate | repeat constructor; discriminate].
Defined.

(** A word that [.+suf$] matches is longer than [suf]. *)
Lemma suffix_rule_length (suf w : string) :
  re_match (Plus Dot :: lits suf ++ [Dollar]) w = true ->
  (String.length suf < String.length w)%nat.
Proof.
  intros Hm. apply re_match_plus_elim in Hm as (p & s' & -> & Hne & _ & Hm).
  apply re_match_lits in Hm as (s'' & -> & _).
  rewrite !length_append. destruct p; [congruence | cbn; lia].
Qed.

(** Either no rule of singularize applies and the word is returned as it
    is, or one does and the result is shorter. *)
Lemma singularize_cases (w : string) :
  (re_match (Plus Dot :: lits "s" ++ [Dollar]) w = false /\ singularize w = w) \/
  (String.length (singularize w) < String.length w)%nat.
Proof.
  rules.
  destruct (re_match (Plus Dot :: lits "ies" ++ [Dollar]) w) eqn:H1.
  { right. apply suffix_rule_length in H1. cbn in H1.
    rewrite length_append, but_last_length. cbn. lia. }
  destruct (re_match (Plus Dot :: lits "ives" ++ [Dollar]) w) eqn:H2.
  { right. apply suffix_rule_length in H2. cbn in H2.
    rewrite length_append, but_last_length. cbn. lia. }
  destruct (re_match (Plus Dot :: lits "ves" ++ [Dollar]) w) eqn:H3.
  { right. apply suffix_rule_length in H3. cbn in H3.
    rewrite length_append, but_last_length. cbn. lia. }
  destruct (re_match (Plus Dot :: lits "s" ++ [Dollar]) w) eqn:H4.
  { right. apply suffix_rule_length in H4. cbn in H4.
    rewrite but_last_length. lia. }
  left. auto.
Qed.

(** X5 -- whatever the word, newlines and all: pluralize returns a strictly
    longer string, and singularize returns the word itself or a strictly
    shorter one. *)
Theorem plural_longer_singular_shorter (w : string) :
  (String.length w < String.length (pluralize w))%nat /\
  (singularize w = w \/
   (String.length (singularize w) < String.length w)%nat).
Proof.
  split.
  - rules.
    repeat match goal with
           | |- context [if ?b then _ else _] => destruct b
           end;
      rewrite ?length_append, ?but_last_length; cbn; lia.
  - destruct (singularize_cases w) as [[_ Heq] | Hlt]; auto.
Qed.

(** X6 -- on a word without newlines singularize changes nothing exactly
    when the word is not a non-empty stem followed by s. *)
Theorem singularize_fixed (w : string) :
  one_line w ->
  singularize w = w <-> ~ exists p, p <> "" /\ w = p ++ "s".
Proof.
  intros Hline. split.
  - intros Hfix (p & Hne & Heq).
    destruct (singularize_cases w) as [[Hno _] | Hlt].
    + rewrite (proj2 (suffix_rule "s" w Hline)) in Hno by eauto. discriminate.
    + rewrite Hfix in Hlt. lia.
  - intros Hnot.
    destruct (singularize_cases w) as [[_ Heq] | Hlt]; [exact Heq|].
    exfalso. apply Hnot. revert Hlt. rules.
    destruct (re_match (Plus Dot :: lits "ies" ++ [Dollar]) w) eqn:H1.
    { apply suffix_rule in H1 as (p & Hne & ->); [|exact Hline].
      intros _. exists (p ++ "ie"). split; [destruct p; discriminate|].
      now rewrite append_assoc. }
    destruct (re_match (Plus Dot :: lits "ives" ++ [Dollar]) w) eqn:H2.
    { apply suffix_rule in H2 as (p & Hne & ->); [|exact Hline].
      intros _. exists (p ++ "ive"). split; [destruct p; discriminate|].
      now rewrite append_assoc. }
    destruct (re_match (Plus Dot :: lits "ves" ++ [Dollar]) w) eqn:H3.
    { apply suffix_rule in H3 as (p & Hne & ->); [|exact Hline].
      intros _. exists (p ++ "ve"). split; [destruct p; discriminate|].
      now rewrite append_assoc. }
    destruct (re_match (Plus Dot :: lits "s" ++ [Dollar]) w) eqn:H4.
    { apply suffix_rule in H4 as (p & Hne & ->); [|exact Hline]. eauto. }
    lia.
Qed.

Lemma singularize_fixed_witness :
  singularize "sheep" = "sheep" <-> ~ exists p, p <> "" /\ "sheep" = p ++ "s".
Proof.
  apply (singularize_fixed "sheep"). repeat constructor; discriminate.
Defined.

End PluralsSpec.

(** ** More on the key generator *)

Module KeygenMore.
Import Py Keygen.

Section WithRandom.
Context {G : Type} `{RandomSource G}.

(** Only the number of iterations matters to the join. *)
Lemma join_choices_length (alphabet : string) (its its' : list Z) :
  length its = length its' ->
  forall g : G, join_choices alphabet its g = join_choices alphabet its' g.
Proof.
  revert its'. induction its as [|x its IH]; intros [|y its'] Hlen g;
    try discriminate; [reflexivity|].
  cbn [join_choices]. destruct (choice alphabet g) as [[c|e] g1]; [|reflexivity].
  now rewrite (IH its') by (simpl in Hlen; lia).
Qed.

Lemma join_choices_app (alphabet : string) (its1 its2 : list Z) (g : G) :
  join_choices alphabet (its1 ++ its2) g =
  match join_choices alphabet its1 g with
  | (Ok s1, g1) =>
      match join_choices alphabet its2 g1 with
      | (Ok s2, g2) => (Ok (s1 ++ s2)%string, g2)
      | (Err e, g2) => (Err e, g2)
      end
  | (Err e, g1) => (Err e, g1)
  end.
Proof.
  revert g. induction its1 as [|x its1 IH]; intros g.
  - cbn. now destruct (join_choices alphabet its2 g) as [[s|e] g2].
  - cbn [app join_choices].
    destruct (choice alphabet g) as [[c|e] g1]; [|reflexivity].
    rewrite IH.
    destruct (join_choices alphabet its1 g1) as [[s1|e1] g2]; [|reflexivity].
    now destruct (join_choices alphabet its2 g2) as [[s2|e2] g3].
Qed.

(** X7 -- a key of m + n characters is a key of m characters followed by a
    key of n characters drawn right after it, for every alphabet; an
    IndexError of either part is the error of the whole. *)
Theorem gen_key_add (m n : Z) (alphabet : string) (g : G) :
  0 <= m -> 0 <= n ->
  gen_key (m + n) alphabet g =
  match gen_key m alphabet g with
  | (Ok s1, g1) =>
      match gen_key n alphabet g1 with
      | (Ok s2, g2) => (Ok (s1 ++ s2)%string, g2)
      | (Err e, g2) => (Err e, g2)
      end
  | (Err e, g1) => (Err e, g1)
  end.
Proof.
  intros Hm Hn. unfold gen_key.
  rewrite <- join_choices_app. apply join_choices_length.
  rewrite length_app, !KeygenSpec.xrange_length. lia.
Qed.

(** X8 -- with a size that is not positive gen_key returns the empty string
    and draws nothing, whatever the alphabet, the empty one included. *)
Theorem gen_key_nothing (size : Z) (alphabet : string) (g : G) :
  size <= 0 -> gen_key size alphabet g = (Ok "", g).
Proof.
  intros Hsize. unfold gen_key, xrange.
  now replace (Z.to_nat size) with 0%nat by lia.
Qed.

(** X9 -- on the empty alphabet any positive size raises IndexError, at the
    first character, after one draw. *)
Theorem gen_key_empty_alphabet (size : Z) (g : G) :
  1 <= size -> gen_key size "" g = (Err IndexError, snd (random g)).
Proof.
  intros Hsize. unfold gen_key, xrange.
  destruct (Z.to_nat size) as [|k] eqn:Hk; [lia|].
  cbn [seq map join_choices]. unfold choice.
  destruct (random g) as [r g1]. cbn [snd].
  assert (Hidx : forall i, getitem "" i = Err IndexError).
  { intros i. unfold getitem. change (len "") with 0.
    destruct (i <? 0); [destruct (0 + i <? 0) | destruct (i <? 0)];
      try reflexivity; now destruct (Z.to_nat _). }
  now rewrite Hidx.
Qed.

Lemma join_choices_draws (alphabet : string) (its : list Z) :
  alphabet <> "" ->
  forall g : G,
    snd (join_choices alphabet its g)
    = Nat.iter (length its) (fun g' => snd (random g')) g.
Proof.
  intros Hne. induction its as [|x its IH]; intros g; [reflexivity|].
  cbn [join_choices length].
  destruct (KeygenSpec.choice_member alphabet g Hne) as (c & Hc & _).
  assert (Hstate : snd (choice alphabet g) = snd (random g)).
  { unfold choice. now destruct (random g). }
  destruct (choice alphabet g) as [rc g1]. cbn [fst snd] in Hc, Hstate. subst rc g1.
  specialize (IH (snd (random g))).
  destruct (join_choices alphabet its (snd (random g))) as [[s|e] g2];
    cbn [snd] in *; rewrite IH; now rewrite Nat.iter_succ_r.
Qed.

(** X10 -- on a non-empty alphabet gen_key draws exactly once per character:
    the generator is left where [size] draws take it. *)
Theorem gen_key_draws (size : Z) (alphabet : string) (g : G) :
  alphabet <> "" ->
  snd (gen_key size alphabet g)
  = Nat.iter (Z.to_nat size) (fun g' => snd (random g')) g.
Proof.
  intros Hne. unfold gen_key.
  rewrite (join_choices_draws alphabet (xrange size) Hne g).
  now rewrite KeygenSpec.xrange_length.
Qed.

End WithRandom.

Lemma gen_key_add_witness :
  gen_key (11 + 11) default_alphabet 42 =
  match gen_key 11 default_alphabet 42 with
  | (Ok s1, g1) =>
      match gen_key 11 default_alphabet g1 with
      | (Ok s2, g2) => (Ok (s1 ++ s2)%string, g2)
      | (Err e, g2) => (Err e, g2)
      end
  | (Err e, g1) => (Err e, g1)
  end.
Proof. apply (gen_key_add 11 11 default_alphabet 42); lia. Defined.

Lemma gen_key_nothing_witness : gen_key (-3) "" 42 = (Ok "", 42).
Proof. apply (gen_key_nothing (-3) "" 42). lia. Defined.

Lemma gen_key_empty_alphabet_witness :
  gen_key 5 "" 42 = (Err IndexError, snd (random 42)).
Proof. apply (gen_key_empty_alphabet 5 42). lia. Defined.

Lemma gen_key_draws_witness :
  snd (gen_key 3 "ab" 42) = Nat.iter (Z.to_nat 3) (fun g' => snd (random g')) 42.
Proof. apply (gen_key_draws 3 "ab" 42). discriminate. Defined.

End KeygenMore.

(** ** More on the lock *)

Module MutexMore.
Import Py Mutex MutexSpec.

Section OneProcess.
Context {W : Type} `{Env W}.
Variables (mutex : string) (expiry : Z) (backoff : Q).


(** X12 -- a retry count that is not positive, negative ones included, means
    no attempt at all: LockUnavailable at once, the world untouched. *)
Theorem lock_no_retries (N : Z) (block : W -> outcome * W) (w : W) :
  N <= 0 ->
  with_ (lock mutex expiry N backoff) block w
  = (Raises (LockUnavailable mutex), w, []).
Proof.
  intros HN. unfold lock, xrange.
  now replace (Z.to_nat N) with 0%nat by lia.
Qed.

End OneProcess.

Lemma lock_no_retries_witness :
  with_ (lock "order:42" 600 (-1) (inject_Z 2))
        (fun w : Cache.world Z => (Completed, w)) (Cache.empty, 42)
  = (Raises (LockUnavailable "order:42"), (Cache.empty, 42), []).
Proof.
  apply (lock_no_retries "order:42" 600 (inject_Z 2) (-1)). lia.
Defined.

End MutexMore.

(** ** More on the lock against the store *)

Module CacheMore.
Import Py Mutex MutexSpec.

Section OneProcess.
Context {G : Type} `{RandomSource G}.
Variables (mutex : string) (expiry : Z) (backoff : Q).

(** The attempts of a lock write under the lock's own key only. *)
Lemma attempts_keep_others (other : string * string) (rs : list Z) :
  other <> ("mutex", mutex) ->
  forall w : Cache.world G,
    Cache.store (fst (world_of (run (attempts mutex expiry backoff rs) w))) !! other
    = Cache.store (fst w) !! other.
Proof.
  intros Hother. induction rs as [|retry rest IH]; intros [c g]; [reflexivity|].
  cbn [attempts run memcache_add Cache.world_env fst snd].
  unfold Cache.add. destruct (Cache.lookup_live mutex "mutex" c) as [e|].
  - cbn [fst snd run random env_random Cache.world_env Cache.world_source
         Cache.world_random time_sleep].
    destruct (negative (backoff ^ retry + fst (random g) * 1)%Q); [reflexivity|].
    specialize (IH (Cache.elapse (backoff ^ retry + fst (random g) * 1)%Q c,
                    snd (random g))).
    destruct (run (attempts mutex expiry backoff rest) _) as [[s w3] tr].
    unfold world_of in *. cbn [fst snd] in *. exact IH.
  - cbn [fst snd]. unfold guarded. cbn [run]. unfold world_of.
    cbn [fst snd Cache.store].
    now rewrite lookup_insert_ne by congruence.
Qed.

(** X13 -- the lock touches no entry but its own: an entry under another
    key or namespace that the block leaves as it is, is after the statement
    what it was before, whether the lock was acquired or not. *)
Theorem lock_keeps_others (N : Z) (other : string * string)
  (block : Cache.world G -> outcome * Cache.world G) (w : Cache.world G) :
  other <> ("mutex", mutex) ->
  (forall w', Cache.store (fst (snd (block w'))) !! other
              = Cache.store (fst w') !! other) ->
  Cache.store (fst (world_of (with_ (lock mutex expiry N backoff) block w))) !! other
  = Cache.store (fst w) !! other.
Proof.
  intros Hother Hblock.
  pose proof (attempts_keep_others other (xrange N) Hother w) as Hrun.
  fold (lock mutex expiry N backoff) in Hrun.
  destruct (run_attempts mutex expiry backoff (xrange N) w)
    as (done & ds & _ & _ &
        [(_ & Hstop & _)
        | [(retry & rest & _ & Hstop & _)
          | (retry & rest & r & _ & _ & _ & Hstop & _)]]);
    fold (lock mutex expiry N backoff) in *.
  - rewrite (with_lock_unavailable _ _ _ N block w Hstop).
    unfold world_of in *. cbn [fst snd]. exact Hrun.
  - rewrite (with_lock_acquired _ _ _ N block w Hstop).
    unfold world_of in *. cbn [fst snd memcache_delete Cache.world_env Cache.delete
                               Cache.store].
    rewrite lookup_delete_ne by congruence.
    now rewrite Hblock.
  - rewrite (with_lock_raised _ _ _ N block w _ Hstop).
    unfold world_of in *. cbn [fst snd]. exact Hrun.
Qed.

Lemma first_add_wins (N : Z)
  (block : Cache.world G -> outcome * Cache.world G) (w : Cache.world G) :
  1 <= N ->
  Cache.lookup_live mutex "mutex" (fst w) = None ->
  with_ (lock mutex expiry N backoff) block w
  = (fst (block (snd (Cache.add mutex true expiry "mutex" (fst w)), snd w)),
     memcache_delete mutex "mutex"
       (snd (block (snd (Cache.add mutex true expiry "mutex" (fst w)), snd w))),
     [EvAdd mutex true expiry "mutex" true;
      EvBlock (fst (block (snd (Cache.add mutex true expiry "mutex" (fst w)), snd w)));
      EvDelete mutex "mutex"]).
Proof.
  intros HN Hfree. unfold lock, xrange.
  destruct (Z.to_nat N) as [|k] eqn:Hk; [lia|].
  cbn [seq map attempts]. unfold with_.
  cbn [run memcache_add Cache.world_env].
  assert (Hadd : fst (Cache.add mutex true expiry "mutex" (fst w)) = true).
  { unfold Cache.add. now rewrite Hfree. }
  rewrite Hadd. unfold guarded. cbn [run].
  destruct (block _) as [[| |e] w2]; reflexivity.
Qed.

(** X14 -- on a name that is free, never taken or its entry expired, a lock
    with at least one retry is acquired by its first add: no draw, no sleep,
    then the block on the store with the new entry, then the delete. *)
Theorem lock_uncontended (N : Z)
  (block : Cache.world G -> outcome * Cache.world G) (w : Cache.world G) :
  1 <= N ->
  Cache.lookup_live mutex "mutex" (fst w) = None ->
  with_ (lock mutex expiry N backoff) block w
  = (fst (block (snd (Cache.add mutex true expiry "mutex" (fst w)), snd w)),
     memcache_delete mutex "mutex"
       (snd (block (snd (Cache.add mutex true expiry "mutex" (fst w)), snd w))),
     [EvAdd mutex true expiry "mutex" true;
      EvBlock (fst (block (snd (Cache.add mutex true expiry "mutex" (fst w)), snd w)));
      EvDelete mutex "mutex"]).
Proof. exact (first_add_wins N block w). Qed.

(** X20 -- a lock that is never released heals: if the entry under the name
    expires no later than [d] seconds from now, then [d] seconds later a
    lock with at least one retry is acquired by its first add, and the
    block runs. *)
Theorem lock_after_expiry (N : Z) (c : Cache.cache) (g : G)
  (e : Cache.entry) (d : Q)
  (block : Cache.world G -> outcome * Cache.world G) :
  1 <= N ->
  Cache.store c !! ("mutex", mutex) = Some e ->
  (Cache.expires e <= Cache.now c + d)%Q ->
  Cache.lookup_live mutex "mutex" (Cache.elapse d c) = None /\
  adds (trace_of (with_ (lock mutex expiry N backoff) block (Cache.elapse d c, g)))
    = [(mutex, true, expiry, "mutex", true)] /\
  length (blocks (trace_of (with_ (lock mutex expiry N backoff) block
                              (Cache.elapse d c, g)))) = 1%nat.
Proof.
  intros HN He Hexp.
  assert (Hfree : Cache.lookup_live mutex "mutex" (Cache.elapse d c) = None).
  { unfold Cache.lookup_live, Cache.elapse, Cache.live. cbn [Cache.store Cache.now].
    rewrite He. now rewrite (proj2 (Qle_bool_iff _ _) Hexp). }
  split; [exact Hfree|].
  now rewrite (first_add_wins N block (Cache.elapse d c, g) HN Hfree).
Qed.

End OneProcess.

Lemma lock_keeps_others_witness :
  Cache.store
    (fst (world_of
            (with_ (lock "order:42" 600 5 (inject_Z 2))
                   (fun w : Cache.world Z => (Completed, w))
                   (snd (Cache.add "order:7" true 600 "mutex" Cache.empty), 42))))
    !! ("mutex", "order:7")
  = Cache.store (snd (Cache.add "order:7" true 600 "mutex" Cache.empty))
    !! ("mutex", "order:7").
Proof.
  apply (lock_keeps_others "order:42" 600 (inject_Z 2) 5 ("mutex", "order:7")
           (fun w : Cache.world Z => (Completed, w))
           (snd (Cache.add "order:7" true 600 "mutex" Cache.empty), 42)).
  - discriminate.
  - reflexivity.
Defined.

Lemma lock_uncontended_witness :
  with_ (lock "order:42" 600 5 (inject_Z 2))
        (fun w : Cache.world Z => (EarlyExit, w)) (Cache.empty, 42)
  = (EarlyExit,
     memcache_delete "order:42" "mutex"
       (snd (Cache.add "order:42" true 600 "mutex" Cache.empty), 42),
     [EvAdd "order:42" true 600 "mutex" true; EvBlock EarlyExit;
      EvDelete "order:42" "mutex"]).
Proof.
  apply (lock_uncontended "order:42" 600 (inject_Z 2) 5
           (fun w : Cache.world Z => (EarlyExit, w)) (Cache.empty, 42)).
  - lia.
  - reflexivity.
Defined.

Lemma lock_after_expiry_witness :
  Cache.lookup_live "order:42" "mutex"
    (Cache.elapse (inject_Z 600)
       (snd (Cache.add "order:42" true 600 "mutex" Cache.empty))) = None /\
  adds (trace_of (with_ (lock "order:42" 600 5 (inject_Z 2))
                        (fun w : Cache.world Z => (Completed, w))
                        (Cache.elapse (inject_Z 600)
                           (snd (Cache.add "order:42" true 600 "mutex" Cache.empty)),
                         42)))
    = [("order:42", true, 600, "mutex", true)] /\
  length (blocks (trace_of (with_ (lock "order:42" 600 5 (inject_Z 2))
                        (fun w : Cache.world Z => (Completed, w))
                        (Cache.elapse (inject_Z 600)
                           (snd (Cache.add "order:42" true 600 "mutex" Cache.empty)),
                         42)))) = 1%nat.
Proof.
  apply (lock_after_expiry "order:42" 600 (inject_Z 2) 5
           (snd (Cache.add "order:42" true 600 "mutex" Cache.empty)) 42
           {| Cache.value := true; Cache.expires := (inject_Z 0 + inject_Z 600)%Q |}
           (inject_Z 600) (fun w : Cache.world Z => (Completed, w))).
  - lia.
  - reflexivity.
  - vm_compute. discriminate.
Defined.

End CacheMore.

(** ** The lock on an item *)

Module NeodbLockSpec.
Import Py Mutex Neodb NeodbLock.

Section Wrapping.
Context {W : Type} `{Env W}.

Lemma run_until_stop (msg : string) (g : Gen) : forall w : W,
  run (until_stop msg g) w =
  match run g w with
  | (Yielded _, w', tr) => (Raised (RuntimeError msg), w', tr)
  | other => other
  end.
Proof.
  induction g as [key v t ns k IH | key ns k IH | k IH | secs k IH | k _ | e |];
    intros w; cbn [until_stop run]; try reflexivity.
  - destruct (memcache_add key v t ns w) as [added w1]. rewrite IH.
    now destruct (run (k added) w1) as [[[k'|e'|] w2] tr].
  - rewrite IH.
    now destruct (run k (memcache_delete key ns w)) as [[[k'|e'|] w2] tr].
  - destruct (random w) as [r w1]. rewrite IH.
    now destruct (run (k r) w1) as [[[k'|e'|] w2] tr].
  - destruct (negative secs); [reflexivity|]. rewrite IH.
    now destruct (run k (time_sleep secs w)) as [[[k'|e'|] w2] tr].
Qed.

Lemma run_with_yield (cm : Gen) : forall w : W,
  run (with_yield cm) w =
  match run cm w with
  | (Yielded k, w', tr) =>
      (Yielded (fun r => until_stop (didnt_stop r) (k r)), w', tr)
  | (Raised e, w', tr) => (Raised e, w', tr)
  | (Returned, w', tr) => (Raised (RuntimeError "generator didn't yield"), w', tr)
  end.
Proof.
  induction cm as [key v t ns k IH | key ns k IH | k IH | secs k IH | k _ | e |];
    intros w; cbn [with_yield run]; try reflexivity.
  - destruct (memcache_add key v t ns w) as [added w1]. rewrite IH.
    now destruct (run (k added) w1) as [[[k'|e'|] w2] tr].
  - rewrite IH.
    now destruct (run k (memcache_delete key ns w)) as [[[k'|e'|] w2] tr].
  - destruct (random w) as [r w1]. rewrite IH.
    now destruct (run (k r) w1) as [[[k'|e'|] w2] tr].
  - destruct (negative secs); [reflexivity|]. rewrite IH.
    now destruct (run k (time_sleep secs w)) as [[[k'|e'|] w2] tr].
Qed.

(** A generator that only wraps [with cm: yield] is, as a context manager,
    [cm] itself. *)
Lemma with_with_yield (cm : Gen) (block : W -> outcome * W) (w : W) :
  with_ (with_yield cm) block w = with_ cm block w.
Proof.
  unfold with_. rewrite run_with_yield.
  destruct (run cm w) as [[[k|e|] w1] t1]; try reflexivity.
  destruct (block w1) as [[| |e] w2]; rewrite run_until_stop;
    now destruct (run (k _) w2) as [[[k'|e'|] w3] t3].
Qed.

(** X15 -- [with lock(item, **kwargs)] is [with mutex.lock(path, **kwargs)]
    on the item's path joined by ':', the same outcome, world and trace, for
    every item that has a key; for an entity whose key is None it raises
    AttributeError before anything is done; for None it is
    [mutex.lock(None, **kwargs)]. *)
Theorem lock_by_path (it : item) (kw : kwargs) (on_none : Gen)
  (block : W -> outcome * W) (w : W) :
  with_ (NeodbLock.lock it kw on_none) block w =
  match it with
  | NoItem => with_ on_none block w
  | AnEntity None => (Raises AttributeError, w, [])
  | AKey k | AnEntity (Some k) =>
      with_ (lock_kw (join ":" (map str (flat k))) kw) block w
  end.
Proof.
  destruct it as [|k|[k|]]; unfold NeodbLock.lock; cbn [as_path as_key];
    try apply with_with_yield.
  reflexivity.
Qed.

End Wrapping.

End NeodbLockSpec.

(** ** The coercions *)

Module HelpersSpec.
Import Py Neodb Helpers.

Section Comprehension.
Context {A B : Type} (f : A -> result B).

Lemma comprehension_ok (items : list A) (bs : list B) :
  comprehension f items = Ok bs <-> Forall2 (fun a b => f a = Ok b) items bs.
Proof.
  revert bs. induction items as [|a items IH]; intros bs; cbn [comprehension].
  - split; [intros [= <-]; constructor | intros Hall; now inversion Hall].
  - destruct (f a) as [b|e] eqn:Hfa.
    + destruct (comprehension f items) as [bs'|e] eqn:Hrest.
      * split.
        -- intros [= <-]. constructor; [exact Hfa | now apply IH].
        -- intros Hall. inversion Hall as [|a' b' items' bs'' Hb Htail]; subst.
           apply IH in Htail. congruence.
      * split; [discriminate|].
        intros Hall. inversion Hall as [|a' b' items' bs'' Hb Htail]; subst.
        apply IH in Htail. discriminate.
    + split; [discriminate|].
      intros Hall. inversion Hall; subst. congruence.
Qed.

Lemma comprehension_err (items : list A) (e : exn) :
  comprehension f items = Err e -> Exists (fun a => f a = Err e) items.
Proof.
  induction items as [|a items IH]; cbn [comprehension]; [discriminate|].
  destruct (f a) as [b|e'] eqn:Hfa.
  - destruct (comprehension f items) as [bs|e'']; [discriminate|].
    intros [= ->]. right. now apply IH.
  - intros [= ->]. now left.
Qed.

Lemma comprehension_fails (items : list A) :
  Exists (fun a => exists e, f a = Err e) items ->
  exists e, comprehension f items = Err e.
Proof.
  induction 1 as [a items [e He] | a items _ [e IH]]; cbn [comprehension].
  - rewrite He. eauto.
  - destruct (f a) as [b|e']; [|eauto]. rewrite IH. eauto.
Qed.

End Comprehension.

(** X16 -- as_keys answers with the key of each argument in order, exactly
    when every argument, after the unwrapping of a single list, is None, a
    key or an entity; it raises when one of them is a string, a number or a
    list, and then AttributeError. get and delete hand ndb the very keys
    that as_keys computes for the same arguments. *)
Theorem as_keys_result (items : list value) :
  (forall ks, as_keys items = Ok ks <->
              Forall2 (fun v k => exists it, v = Item it /\ k = Neodb.as_key it)
                      (_list_or_args items) ks) /\
  (forall e, as_keys items = Err e <->
             e = AttributeError /\ Exists keyless (_list_or_args items)) /\
  keys_of_items items = as_keys items.
Proof.
  unfold keys_of_items, as_keys. cbn [_list_or_args].
  generalize (_list_or_args items). intros vs. split; [|split; [|reflexivity]].
  - intros ks. rewrite comprehension_ok. split; intros Hall;
      (induction Hall as [|v k vs' ks' Hvk _ IH]; constructor; [|exact IH]).
    + destruct v; try discriminate. injection Hvk as <-. eauto.
    + now destruct Hvk as (it & -> & ->).
  - intros e. split.
    + intros Herr. apply comprehension_err in Herr.
      induction Herr as [v vs' Hv | v vs' _ [-> IH]].
      * destruct v; try discriminate; injection Hv as <-;
          (split; [reflexivity | now left]).
      * split; [reflexivity | now right].
    + intros [-> Hex].
      destruct (comprehension_fails as_key vs) as [e He].
      * eapply Exists_impl; [exact Hex|].
        intros [it| | |] Hk; try contradiction; cbn; eauto.
      * rewrite He. f_equal. apply comprehension_err in He.
        clear Hex. induction He as [v vs' Hv | v vs' _ IH]; [|exact IH].
        destruct v; try discriminate; now injection Hv as <-.
Qed.

Lemma list_or_args_same (vs : list value) :
  (forall ws, vs <> [Sequence ws]) -> _list_or_args vs = vs.
Proof.
  intros Hnot. destruct vs as [|[it|s|n|ws] [|v vs]]; try reflexivity.
  now destruct (Hnot ws).
Qed.

(** X17 -- one list of items or the items as separate arguments, as_keys
    and as_ids answer the same, unless the list holds just one list: a list
    in a list is not unwrapped a second time, and as_keys raises
    AttributeError on it. *)
Theorem list_or_arguments (vs : list value) :
  (forall ws, vs <> [Sequence ws]) ->
  as_keys [Sequence vs] = as_keys vs /\
  as_ids [Sequence vs] = as_ids vs /\
  as_keys [Sequence [Sequence vs]] = Err AttributeError /\
  as_ids [Sequence [Sequence vs]] = Err AttributeError.
Proof.
  intros Hnot. unfold as_keys, as_ids. cbn [_list_or_args].
  rewrite (list_or_args_same vs Hnot). repeat split.
Qed.

Lemma list_or_arguments_witness :
  as_keys [Sequence [Item (AKey {| pairs := [("Order", Int 42)] |}); Item NoItem]]
  = as_keys [Item (AKey {| pairs := [("Order", Int 42)] |}); Item NoItem].
Proof.
  apply (list_or_arguments
           [Item (AKey {| pairs := [("Order", Int 42)] |}); Item NoItem]).
  discriminate.
Defined.

(** X18 -- as_ids raises exactly when an argument, after the unwrapping of a
    single list, is a list or an entity whose key is None, and then
    AttributeError; and ids pass through it unchanged, given as arguments
    or as one list, so that as_ids of its own result is that result. *)
Theorem as_ids_result (items : list value) (cs : list component) :
  (forall e, as_ids items = Err e <->
             e = AttributeError /\ Exists idless (_list_or_args items)) /\
  as_ids [Sequence (map id_value cs)] = Ok cs /\
  as_ids (map id_value cs) = Ok cs.
Proof.
  assert (Hids : comprehension as_id (map id_value cs) = Ok cs).
  { induction cs as [|c cs IH]; [reflexivity|].
    cbn [map comprehension]. rewrite IH. now destruct c. }
  split; [|split].
  - unfold as_ids. generalize (_list_or_args items). intros vs e. split.
    + intros Herr. apply comprehension_err in Herr.
      induction Herr as [v vs' Hv | v vs' _ [-> IH]].
      * destruct v as [[|k|[k|]]|s|n|ws]; try discriminate; injection Hv as <-;
          (split; [reflexivity | left; cbn; auto]).
      * split; [reflexivity | now right].
    + intros [-> Hex].
      destruct (comprehension_fails as_id vs) as [e He].
      * eapply Exists_impl; [exact Hex|].
        intros [[|k|[k|]]|s|n|ws] Hk; cbn in Hk; try contradiction; cbn; eauto.
      * rewrite He. f_equal. apply comprehension_err in He.
        clear Hex. induction He as [v vs' Hv | v vs' _ IH]; [|exact IH].
        destruct v as [[|k|[k|]]|s|n|ws]; try discriminate; now injection Hv as <-.
  - unfold as_ids. cbn [_list_or_args]. exact Hids.
  - unfold as_ids. rewrite list_or_args_same; [exact Hids|].
    intros ws Heq. destruct cs as [|[] [|]]; discriminate.
Qed.

(** C6 (as amended) -- as_path has no InvalidIdentity. For None it returns
    None; for a key and for an entity with a key, an incomplete key whose
    id is None included, it returns the joined string; and it raises, then
    AttributeError, exactly when it is given an entity whose key is None or
    a value that is none of None, a key, an entity: a string such as a raw
    lock name, a number, a list. *)
Theorem as_path_errors (v : value) (separator : string) :
  (forall e, Helpers.as_path v separator = Err e <->
             e = AttributeError /\ (v = Item (AnEntity None) \/ keyless v)) /\
  (Helpers.as_path v separator = Ok None <-> v = Item NoItem) /\
  (forall it, v = Item it ->
              Helpers.as_path v separator = Neodb.as_path it separator) /\
  (forall k, Helpers.as_key v = Ok (Some k) ->
             Helpers.as_path v separator
             = Ok (Some (join separator (map str (flat k))))).
Proof.
  destruct v as [[|k0|[k0|]]|s|n|vs]; cbn;
    (split; [|split; [|split]]);
    try (intros e; split; [intros [= <-] | intros [-> _]]; auto; fail);
    try (split; [discriminate | intros [= ]]; fail);
    try (intros it [= <-]; reflexivity);
    try (intros k [= <-]; reflexivity);
    try (intros k; discriminate);
    try (intros it; discriminate).
  - intros e. split; [discriminate | intros [_ [[= ] | []]]].
  - tauto.
  - intros e. split; [discriminate | intros [_ [[= ] | []]]].
  - intros e. split; [discriminate | intros [_ [[= ] | []]]].
Qed.

(** X19 -- once a memoized function has returned a value for an object,
    every later call on that object of it, or of any memoized function of
    the same name, returns that value without calling the function and
    leaves the object as it is. *)
Theorem memoized_once (V : Type) (func func' : function V)
  (target target1 : gmap string V) (v : V) :
  __name__ V func' = __name__ V func ->
  memoized V func target = (Ok v, target1) ->
  memoized V func' target1 = (Ok v, target1).
Proof.
  unfold memoized. intros ->.
  destruct (target !! ("_memo_for_" ++ __name__ V func)%string) as [v0|] eqn:Hmemo.
  - intros [= -> <-]. now rewrite Hmemo.
  - destruct (call V func target) as [[v0|e] target']; [|discriminate].
    intros [= -> <-]. now rewrite lookup_insert_eq.
Qed.

Lemma memoized_once_witness :
  memoized Z {| __name__ := "total"; call := fun t => (Err IndexError, t) |}
           (<["_memo_for_total" := 7]> ∅)
  = (Ok 7, <["_memo_for_total" := 7]> ∅).
Proof.
  apply (memoized_once Z {| __name__ := "total"; call := fun t => (Ok 7, t) |}
           {| __name__ := "total"; call := fun t => (Err IndexError, t) |} ∅).
  - reflexivity.
  - reflexivity.
Defined.

End HelpersSpec.

(** ** Paths of parents and children *)

Module NeodbMore.
Import Py Neodb.

Local Open Scope string_scope.

Lemma join_app (sep : string) (l1 l2 : list string) :
  l1 <> [] -> l2 <> [] ->
  join sep (l1 ++ l2) = join sep l1 ++ sep ++ join sep l2.
Proof.
  intros Hne1 Hne2. induction l1 as [|x l1 IH]; [congruence|].
  destruct l1 as [|x' l1].
  - destruct l2 as [|y l2]; [congruence | reflexivity].
  - change (join sep ((x :: x' :: l1) ++ l2))
      with (x ++ sep ++ join sep ((x' :: l1) ++ l2)).
    rewrite IH by discriminate.
    change (join sep (x :: x' :: l1)) with (x ++ sep ++ join sep (x' :: l1)).
    now rewrite !PluralsSpec.append_assoc.
Qed.

(** X21 -- the path of a child begins with the path of its parent: for a key
    with at least one ancestor pair, as_path is the parent key's path, the
    separator, the child's kind, the separator and the child's id. *)
Theorem as_path_child (ancestors : list (string * component))
  (kind : string) (id : component) (separator : string) :
  ancestors <> [] ->
  exists parent,
    as_path (AKey {| pairs := ancestors |}) separator = Ok (Some parent) /\
    as_path (AKey {| pairs := ancestors ++ [(kind, id)] |}) separator
    = Ok (Some (parent ++ separator ++ kind ++ separator ++ str id)).
Proof.
  intros Hne. eexists. split; [reflexivity|].
  cbn [as_path as_key]. do 2 f_equal. unfold flat. cbn [pairs].
  rewrite flat_map_app, map_app. cbn [flat_map app map fst snd str].
  rewrite join_app; [reflexivity | | discriminate].
  destruct ancestors as [|[k i] rest]; [congruence | discriminate].
Qed.

Lemma as_path_child_witness :
  exists parent,
    as_path (AKey {| pairs := [("Customer", Str "k3Xq")] |}) ":" = Ok (Some parent) /\
    as_path (AKey {| pairs := [("Customer", Str "k3Xq")] ++ [("Order", Int 42)] |}) ":"
    = Ok (Some (parent ++ ":" ++ "Order" ++ ":" ++ str (Int 42))).
Proof.
  apply (as_path_child [("Customer", Str "k3Xq")] "Order" (Int 42) ":").
  discriminate.
Defined.

End NeodbMore.

(** ** How long a caller waits *)

Module BackoffSpec.
Import Py Mutex MutexSpec.



Section OneProcess.
Context {W : Type} `{Env W}.
Variables (mutex : string) (expiry : Z).


End OneProcess.


End BackoffSpec.
